(** * zipline: server/util.ts

  A shallow embedding of the two exported procedures of
  [src/server/util.ts]:

  - [migrations] (the spec's [runMigrations]): the start-up migration
    bootstrap, written against the Prisma migration engine;
  - [getStats] (the spec's [computeUsageReport]): the read-side usage
    aggregation, written against the Prisma client and a datasource.

  Both are [async] functions that thread an external world (the database)
  through a sequence of awaited calls, any of which may throw.  They are
  embedded in one small state-and-exception monad, [Prog].

  Numbers are JavaScript numbers that hold integers (row counts, view
  counters, byte counts); they are modelled as [Z], which is exact for
  them below 2^53. *)

From Stdlib Require Import List String ZArith Lia Bool Arith.
From Stdlib Require Import Permutation Sorted.
Import ListNotations.

Local Open Scope string_scope.
Local Open Scope Z_scope.
Local Open Scope list_scope.

(* ================================================================== *)
(** ** JavaScript control flow: values, exceptions and [process.exit]  *)
(* ================================================================== *)

Module Js.

(** A thrown JavaScript [Error] object; the code only reads [message]. *)
Record Error : Type := mkError { message : string }.

(** How a computation ends: it yields a value, it throws, or the
    process is gone ([process.exit(code)]), which nothing can catch. *)
Inductive Res (A : Type) : Type :=
| Val (a : A)
| Throw (e : Error)
| Exit (code : Z).
Arguments Val {A} a.
Arguments Throw {A} e.
Arguments Exit {A} code.

(** An awaited computation over a world of type [S]. *)
Definition Prog (S A : Type) : Type := S -> Res A * S.

Definition ret {S A} (a : A) : Prog S A := fun s => (Val a, s).

Definition bind {S A B} (m : Prog S A) (k : A -> Prog S B) : Prog S B :=
  fun s =>
    match m s with
    | (Val a, s') => k a s'
    | (Throw e, s') => (Throw e, s')
    | (Exit c, s') => (Exit c, s')
    end.

Definition throw {S A} (e : Error) : Prog S A := fun s => (Throw e, s).

(** [process.exit(code)] *)
Definition exit {S A} (code : Z) : Prog S A := fun s => (Exit code, s).

Definition modify {S} (f : S -> S) : Prog S unit := fun s => (Val tt, f s).

(** [try { m } catch (error) { h error }] *)
Definition try_catch {S A} (m : Prog S A) (h : Error -> Prog S A) : Prog S A :=
  fun s =>
    match m s with
    | (Throw e, s') => h e s'
    | r => r
    end.

(** [try { m } finally { f }]: [f] runs whether [m] returned or threw,
    and the completion of [m] is kept when [f] completes normally. *)
Definition try_finally {S A} (m : Prog S A) (f : Prog S unit) : Prog S A :=
  fun s =>
    match m s with
    | (Val a, s') => bind f (fun _ => ret a) s'
    | (Throw e, s') => bind f (fun _ => throw e) s'
    | (Exit c, s') => (Exit c, s')
    end.

(** [String.prototype.startsWith] *)
Definition startsWith (s p : string) : bool := String.prefix p s.

(** [a ?? b] on a nullable value *)
Definition nullish {A} (a : option A) (b : A) : A :=
  match a with Some x => x | None => b end.

(** A template-literal hole [${v}] for a possibly undefined string. *)
Definition interpolate (v : option string) : string :=
  match v with Some s => s | None => "undefined" end.

(** [Array.prototype.sort(cmp)].  ECMAScript requires the sort to be
    stable; for a consistent comparator every stable sort produces the
    same array, here computed by insertion from the right: an element
    goes in front of the first one it does not compare greater than. *)
Section Sort.
Context {A : Type} (cmp : A -> A -> Z).

Fixpoint insert (x : A) (l : list A) : list A :=
  match l with
  | [] => [x]
  | y :: l' => if cmp x y <=? 0 then x :: l else y :: insert x l'
  end.

Fixpoint sort (l : list A) : list A :=
  match l with
  | [] => []
  | x :: l' => insert x (sort l')
  end.

End Sort.

End Js.

Declare Scope prog_scope.
Delimit Scope prog_scope with prog.
Notation "x <- m ;; k" := (Js.bind m (fun x => k))
  (at level 61, m at next level, right associativity) : prog_scope.
Notation "m ;; k" := (Js.bind m (fun _ => k))
  (at level 61, right associativity) : prog_scope.

(* ================================================================== *)
(** ** The migration bootstrap: [migrations()]                         *)
(* ================================================================== *)

Module Migrations.
Import Js.
Local Open Scope prog_scope.

(** *** The Prisma migration engine, as the code sees it *)

(** [DiagnoseMigrationHistoryOutput]: the code reads only
    [history?.diagnostic]; [history] is null when the database and the
    migrations directory agree. *)
Record HistoryDiagnostic : Type := mkHistory { diagnostic : string }.
Record DiagnoseOutput : Type := mkDiagnose { history : option HistoryDiagnostic }.

(** The external calls, over a database state [DB].  [newMigrate] is
    [new Migrate(schemaPath)]; [applyMigrations] returns the database it
    left behind together with the error it threw, if any. *)
Record Engine (DB : Type) : Type := mkEngine {
  newMigrate : DB -> option Error;
  ensureDatabaseExists : DB -> Error + DB;
  diagnoseMigrationHistory : DB -> Error + DiagnoseOutput;
  applyMigrations : DB -> option Error * DB
}.
Arguments newMigrate {DB} _ _.
Arguments ensureDatabaseExists {DB} _ _.
Arguments diagnoseMigrationHistory {DB} _ _.
Arguments applyMigrations {DB} _ _.

(** *** Observable effects *)

Inductive Level : Type := debug | info | error.

Inductive Event : Type :=
| Log (lvl : Level) (msg : string)   (* logger.<lvl>(msg) *)
| LogError (e : Error)               (* logger.error(error) *)
| Connected                          (* new Migrate(...) returned *)
| EnsureCall                         (* ensureDatabaseExists(...) *)
| DiagnoseCall                       (* migrate.diagnoseMigrationHistory(...) *)
| ApplyCall                          (* migrate.applyMigrations() *)
| Stop                               (* migrate.stop() *)
| ProcessExit (code : Z).            (* process.exit(code) *)

(** The world of [migrations]: the database and the effects so far. *)
Record World (DB : Type) : Type := mkWorld { db : DB; trace : list Event }.
Arguments mkWorld {DB} _ _.
Arguments db {DB} _.
Arguments trace {DB} _.

Section Program.
Context {DB : Type} (E : Engine DB).
(** [process.env.DATABASE_URL] *)
Variable DATABASE_URL : option string.

Definition emit (ev : Event) : Prog (World DB) unit :=
  modify (fun w => mkWorld (db w) (trace w ++ [ev])).

Definition logger (lvl : Level) (msg : string) : Prog (World DB) unit :=
  emit (Log lvl msg).

Definition new_Migrate : Prog (World DB) unit :=
  fun w =>
    match newMigrate E (db w) with
    | Some e => (Throw e, w)
    | None => emit Connected w
    end.

Definition ensure_database_exists : Prog (World DB) unit :=
  fun w =>
    let t1 := trace w ++ [EnsureCall] in
    match ensureDatabaseExists E (db w) with
    | inl e => (Throw e, mkWorld (db w) t1)
    | inr d => (Val tt, mkWorld d t1)
    end.

Definition migrate_diagnoseMigrationHistory : Prog (World DB) DiagnoseOutput :=
  fun w =>
    let t1 := trace w ++ [DiagnoseCall] in
    match diagnoseMigrationHistory E (db w) with
    | inl e => (Throw e, mkWorld (db w) t1)
    | inr d => (Val d, mkWorld (db w) t1)
    end.

Definition migrate_applyMigrations : Prog (World DB) unit :=
  fun w =>
    let t1 := trace w ++ [ApplyCall] in
    match applyMigrations E (db w) with
    | (Some e, d) => (Throw e, mkWorld d t1)
    | (None, d) => (Val tt, mkWorld d t1)
    end.

Definition migrate_stop : Prog (World DB) unit := emit Stop.

(** [diagnose.history?.diagnostic === 'databaseIsBehind'] *)
Definition is_behind (d : DiagnoseOutput) : bool :=
  match history d with
  | Some h => String.eqb (diagnostic h) "databaseIsBehind"
  | None => false
  end.

(** The [try] block, lines 13-35. *)
Definition migrations_try : Prog (World DB) unit :=
  logger debug "establishing database connection" ;;
  new_Migrate ;;
  logger debug "ensuring database exists, if not creating database - may error if no permissions" ;;
  ensure_database_exists ;;
  diagnose <- migrate_diagnoseMigrationHistory ;;
  if is_behind diagnose then
    logger debug "database is behind, attempting to migrate" ;;
    try_finally
      (logger debug "migrating database" ;;
       migrate_applyMigrations)
      (migrate_stop ;;
       logger info "finished migrating database")
  else
    logger debug "exiting migrations engine - database is up to date" ;;
    migrate_stop.

Definition unreachable_message : string :=
  ("Unable to connect to database `" ++ interpolate DATABASE_URL
     ++ "`, check your database connection")%string.

Definition failed_message : string := "Failed to migrate database... exiting...".

(** The [catch (error)] block, lines 36-47. *)
Definition migrations_catch (err : Error) : Prog (World DB) unit :=
  (if startsWith (message err) "P1001" then
     logger error unreachable_message
   else
     logger error failed_message ;;
     emit (LogError err)) ;;
  emit (ProcessExit 1) ;;
  exit 1.

Definition migrations : Prog (World DB) unit :=
  try_catch migrations_try migrations_catch.

End Program.

(** *** Reading a run *)

(** Whether the session opened by [new Migrate] is still open after the
    events [t], given whether it was open before them. *)
Fixpoint session_open (t : list Event) (open : bool) : bool :=
  match t with
  | [] => open
  | Connected :: t' => session_open t' true
  | Stop :: t' => session_open t' false
  | _ :: t' => session_open t' open
  end.

(** The events of a run that finds nothing to apply. *)
Definition up_to_date_events : list Event :=
  [Log debug "establishing database connection"; Connected;
   Log debug "ensuring database exists, if not creating database - may error if no permissions";
   EnsureCall; DiagnoseCall;
   Log debug "exiting migrations engine - database is up to date";
   Stop].

(** The events of the "behind" branch up to and including its [finally]. *)
Definition behind_events : list Event :=
  [Log debug "establishing database connection"; Connected;
   Log debug "ensuring database exists, if not creating database - may error if no permissions";
   EnsureCall; DiagnoseCall;
   Log debug "database is behind, attempting to migrate";
   Log debug "migrating database"; ApplyCall; Stop;
   Log info "finished migrating database"].

Definition is_apply (ev : Event) : bool :=
  match ev with ApplyCall => true | _ => false end.

(** Number of [applyMigrations] calls issued. *)
Definition apply_calls (t : list Event) : nat := List.length (filter is_apply t).

(** The process was terminated. *)
Definition fatal {A S} (r : Res A * S) : Prop := exists code, fst r = Exit code.

(** [s] has [sub] as a substring. *)
Definition contains (s sub : string) : Prop :=
  exists pre post, s = (pre ++ sub ++ post)%string.

(** The spec's [DiagnosticResult] and how the engine's answer maps to it. *)
Inductive DiagnosticResult : Type := upToDate | behind | driftedOrUnknown.

(** Modelled from the spec: the three-way reading of the engine's
    diagnosis ([upToDate] when no history problem is reported, [behind]
    for [databaseIsBehind], [driftedOrUnknown] for every other answer). *)
Definition classify (d : DiagnoseOutput) : DiagnosticResult :=
  match history d with
  | None => upToDate
  | Some h => if String.eqb (diagnostic h) "databaseIsBehind" then behind
              else driftedOrUnknown
  end.

End Migrations.

(* ================================================================== *)
(** ** A migration store                                               *)
(* ================================================================== *)

(** The engine behind the Prisma calls is an external collaborator.  To
    state what [migrations] does to a store, the spec's data model is
    used: a store records an ordered sequence of applied migration
    identifiers and is compared with the expected lineage. *)
Module Lineage.
Import Js Migrations.

(** Modelled from the spec: the configuration the engine runs against
    (the expected lineage, whether the server answers, whether the
    credentials may create a database, and which migration fails when it
    is applied). *)
Record Config : Type := mkConfig {
  lineage : list string;
  reachable : bool;
  can_create : bool;
  apply_error : string -> option Error
}.

(** Modelled from the spec: [MigrationState], with whether the database
    exists at all. *)
Record Database : Type := mkDatabase { present : bool; applied : list string }.

Fixpoint is_prefix (a b : list string) : bool :=
  match a, b with
  | [], _ => true
  | x :: a', y :: b' => String.eqb x y && is_prefix a' b'
  | _ :: _, [] => false
  end.

(** Modelled from the spec: the diagnosis.  The histories agree
    ([upToDate]), the store is a proper prefix of the lineage ([behind]),
    or the store matches no prefix of the lineage (drift). *)
Definition diagnose_history (c : Config) (d : Database) : option HistoryDiagnostic :=
  if is_prefix (applied d) (lineage c) then
    if is_prefix (lineage c) (applied d) then None
    else Some (mkHistory "databaseIsBehind")
  else if is_prefix (lineage c) (applied d) then
    Some (mkHistory "migrationDirectoryIsBehind")
  else Some (mkHistory "historiesDiverge").

(** Modelled from the spec: pending migrations are applied one after the
    other in lineage order; the first failure stops the run and what was
    applied before it stays applied. *)
Fixpoint apply_pending (err : string -> option Error)
    (pending done : list string) : option Error * list string :=
  match pending with
  | [] => (None, done)
  | m :: rest =>
      match err m with
      | Some e => (Some e, done)
      | None => apply_pending err rest (done ++ [m])
      end
  end.

Definition pending (c : Config) (d : Database) : list string :=
  skipn (List.length (applied d)) (lineage c).

Definition unreachable_error : Error :=
  mkError "P1001: Can't reach database server".

Definition denied_error : Error :=
  mkError "P3014: Prisma Migrate could not create the database".

(** Modelled from the spec: the engine over such a store.  An
    unreachable server rejects every call with the P1001 error; a missing
    database is created when the credentials allow it. *)
Definition engine (c : Config) : Engine Database :=
  {| newMigrate := fun _ => None;
     ensureDatabaseExists := fun d =>
       if negb (reachable c) then inl unreachable_error
       else if present d then inr d
       else if can_create c then inr (mkDatabase true [])
       else inl denied_error;
     diagnoseMigrationHistory := fun d =>
       if negb (reachable c) then inl unreachable_error
       else inr (mkDiagnose (diagnose_history c d));
     applyMigrations := fun d =>
       if negb (reachable c) then (Some unreachable_error, d)
       else
         let (r, a) := apply_pending (apply_error c) (pending c d) (applied d) in
         (r, mkDatabase (present d) a) |}.

(** One call of [migrations()] against a store, with an empty log. *)
Definition run (c : Config) (url : option string) (d : Database)
  : Res unit * World Database :=
  migrations (engine c) url (mkWorld d []).

End Lineage.

(* ================================================================== *)
(** ** The usage report: [getStats(prisma, datasource)]                *)
(* ================================================================== *)

Module Stats.
Import Js.
Local Open Scope prog_scope.

(** *** The store *)

(** The columns of [Image] and [User] that the queries read. *)
Record Image : Type := mkImage { userId : Z; mimetype : string; views : Z }.
Record User : Type := mkUser { id : Z; username : string }.

Record Store : Type := mkStore { images : list Image; users : list User }.

(** The sub-queries [getStats] can issue. *)
Inductive Query : Type :=
| QFullSize                 (* datasource.fullSize() *)
| QGroupByUser              (* prisma.image.groupBy({ by: ['userId'], ... }) *)
| QUserCount                (* prisma.user.count() *)
| QFindUser (owner : Z)     (* prisma.user.findFirst({ where: { id } }) *)
| QImageCount               (* prisma.image.count() *)
| QSumViews                 (* prisma.image.aggregate({ _sum: { views } }) *)
| QGroupByType.             (* prisma.image.groupBy({ by: ['mimetype'], ... }) *)

(** The world of [getStats]: the relational store, the bytes the
    datasource occupies, and the queries issued so far. *)
Record World : Type := mkWorld {
  store : Store;
  occupied : Z;
  issued : list Query
}.

(** Which awaited call fails: the [n]-th call ever issued (from 0)
    rejects with the given error. *)
Definition Faults : Type := nat -> option Error.

(** *** Query results

    The answers of the Prisma client, which is external: [groupBy] yields
    one row per distinct key with the size of its group, [findFirst] the
    first matching row or null, [count] the number of rows, and
    [aggregate]'s [_sum] the sum of the column, null over no rows. *)

(** Distinct keys, in order of first occurrence. *)
Fixpoint distinct {K} (eqb : K -> K -> bool) (l : list K) : list K :=
  match l with
  | [] => []
  | k :: l' => k :: filter (fun x => negb (eqb k x)) (distinct eqb l')
  end.

Definition occurrences {K} (eqb : K -> K -> bool) (k : K) (l : list K) : Z :=
  Z.of_nat (List.length (filter (eqb k) l)).

(** [groupBy] with a count: one row per distinct key. *)
Definition groupBy_count {K} (eqb : K -> K -> bool) (l : list K) : list (K * Z) :=
  map (fun k => (k, occurrences eqb k l)) (distinct eqb l).

(** A row of [image.groupBy({ by: ['userId'], _count: { _all } })]. *)
Record ByUser : Type := mkByUser { by_userId : Z; by_count_all : Z }.
(** A row of [image.groupBy({ by: ['mimetype'], _count: { mimetype } })]. *)
Record ByType : Type := mkByType { by_mimetype : string; by_count_mimetype : Z }.

Definition group_by_user (s : Store) : list ByUser :=
  map (fun r => mkByUser (fst r) (snd r)) (groupBy_count Z.eqb (map userId (images s))).

Definition group_by_type (s : Store) : list ByType :=
  map (fun r => mkByType (fst r) (snd r)) (groupBy_count String.eqb (map mimetype (images s))).

Definition find_user (s : Store) (owner : Z) : option User :=
  find (fun u => id u =? owner) (users s).

Definition sum_Z (l : list Z) : Z := fold_right Z.add 0 l.

(** [_sum.views]: null over no rows, as SQL's SUM is. *)
Definition sum_views (s : Store) : option Z :=
  match images s with
  | [] => None
  | _ => Some (sum_Z (map views (images s)))
  end.

(** *** The report *)

Record UserCount : Type := mkUserCount { uc_username : string; uc_count : Z }.
Record TypeCount : Type := mkTypeCount { tc_mimetype : string; tc_count : Z }.

Record Report : Type := mkReport {
  size : string;
  size_num : Z;
  count : Z;
  count_by_user : list UserCount;
  count_users : Z;
  views_count : Z;
  types_count : list TypeCount
}.

Definition null_username : Error :=
  mkError "Cannot read properties of null (reading 'username')".

Section Program.
(** [bytesToHuman] of [lib/utils/bytes], which the report only stores. *)
Variable bytesToHuman : Z -> string.
Variable faults : Faults.

(** An awaited external call: it is logged, then it rejects or answers
    from the current world. *)
Definition call {A} (q : Query) (answer : World -> A) : Prog World A :=
  fun w =>
    let w' := mkWorld (store w) (occupied w) (issued w ++ [q]) in
    match faults (List.length (issued w)) with
    | Some e => (Throw e, w')
    | None => (Val (answer w), w')
    end.

Definition datasource_fullSize : Prog World Z :=
  call QFullSize occupied.

Definition image_groupBy_userId : Prog World (list ByUser) :=
  call QGroupByUser (fun w => group_by_user (store w)).

Definition user_count : Prog World Z :=
  call QUserCount (fun w => Z.of_nat (List.length (users (store w)))).

Definition user_findFirst (owner : Z) : Prog World (option User) :=
  call (QFindUser owner) (fun w => find_user (store w) owner).

Definition image_count : Prog World Z :=
  call QImageCount (fun w => Z.of_nat (List.length (images (store w)))).

Definition image_aggregate_sum_views : Prog World (option Z) :=
  call QSumViews (fun w => sum_views (store w)).

Definition image_groupBy_mimetype : Prog World (list ByType) :=
  call QGroupByType (fun w => group_by_type (store w)).

(** The first loop, lines 71-82: [user.username] throws on a null [user]. *)
Fixpoint push_users (byUser : list ByUser) (count_by_user : list UserCount)
  : Prog World (list UserCount) :=
  match byUser with
  | [] => ret count_by_user
  | row :: rest =>
      user <- user_findFirst (by_userId row) ;;
      match user with
      | None => throw null_username
      | Some u =>
          push_users rest
            (count_by_user ++ [mkUserCount (username u) (by_count_all row)])
      end
  end.

(** The second loop, lines 99-103. *)
Fixpoint push_types (typesCount : list ByType) (types_count : list TypeCount)
  : list TypeCount :=
  match typesCount with
  | [] => types_count
  | row :: rest =>
      push_types rest
        (types_count ++ [mkTypeCount (by_mimetype row) (by_count_mimetype row)])
  end.

(** [(a, b) => b.count - a.count] *)
Definition by_user_desc (a b : UserCount) : Z := uc_count b - uc_count a.
Definition by_type_desc (a b : TypeCount) : Z := tc_count b - tc_count a.

Definition getStats : Prog World Report :=
  size <- datasource_fullSize ;;
  byUser <- image_groupBy_userId ;;
  count_users <- user_count ;;
  count_by_user <- push_users byUser [] ;;
  count <- image_count ;;
  views <- image_aggregate_sum_views ;;
  typesCount <- image_groupBy_mimetype ;;
  let types_count := push_types typesCount [] in
  ret {| size := bytesToHuman size;
         size_num := size;
         count := count;
         count_by_user := sort by_user_desc count_by_user;
         count_users := count_users;
         views_count := nullish views 0;
         types_count := sort by_type_desc types_count |}.

End Program.

(** *** Reading a report *)

(** The entry the first loop builds for a row, when its owner exists. *)
Definition owner_entry (s : Store) (row : ByUser) : option UserCount :=
  match find_user s (by_userId row) with
  | Some u => Some (mkUserCount (username u) (by_count_all row))
  | None => None
  end.

Definition type_entry (row : ByType) : TypeCount :=
  mkTypeCount (by_mimetype row) (by_count_mimetype row).

(** The entries of the first loop, when every row's owner exists. *)
Fixpoint owner_entries (s : Store) (rows : list ByUser) : option (list UserCount) :=
  match rows with
  | [] => Some []
  | row :: rest =>
      match owner_entry s row, owner_entries s rest with
      | Some e, Some es => Some (e :: es)
      | _, _ => None
      end
  end.

(** The world after the queries [qs] were issued. *)
Definition advance (w : World) (qs : list Query) : World :=
  mkWorld (store w) (occupied w) (issued w ++ qs).

(** The report of a complete run, from the loop's entries. *)
Definition report_of (bytesToHuman : Z -> string) (w : World)
    (entries : list UserCount) : Report :=
  {| size := bytesToHuman (occupied w);
     size_num := occupied w;
     count := Z.of_nat (List.length (images (store w)));
     count_by_user := sort by_user_desc entries;
     count_users := Z.of_nat (List.length (users (store w)));
     views_count := nullish (sum_views (store w)) 0;
     types_count := sort by_type_desc (map type_entry (group_by_type (store w))) |}.

(** Every object's owner id names a user row. *)
Definition owners_resolve (s : Store) : Prop :=
  forall i, In i (images s) -> find_user s (userId i) <> None.

(** The lookup the first loop issues for a row. *)
Definition lookup_of (row : ByUser) : Query := QFindUser (by_userId row).

(** The queries of a complete run over the store [s], in issue order. *)
Definition queries (s : Store) : list Query :=
  [QFullSize; QGroupByUser; QUserCount]
    ++ map lookup_of (group_by_user s)
    ++ [QImageCount; QSumViews; QGroupByType].

(** No call of a complete run that starts in [w] is made to fail. *)
Definition fault_free (faults : Faults) (w : World) : Prop :=
  forall k, (k < List.length (queries (store w)))%nat ->
            faults (List.length (issued w) + k)%nat = None.

(** The comparator [(a, b) => key(b) - key(a)]. *)
Definition desc {A} (key : A -> Z) (a b : A) : Z := key b - key a.

(** A computation that answers or throws, never ends the process, and
    leaves the store and the datasource as they were. *)
Definition read_only {A} (m : Prog World A) : Prop :=
  forall w, exists w',
    store w' = store w /\ occupied w' = occupied w /\
    ((exists a, m w = (Val a, w')) \/ (exists e, m w = (Throw e, w'))).

(** Descending by count. *)
Definition descending {A} (key : A -> Z) (l : list A) : Prop :=
  StronglySorted (fun a b => key b <= key a) l.

(** The entries with a given count, in list order. *)
Definition with_count {A} (key : A -> Z) (c : Z) (l : list A) : list A :=
  filter (fun a => key a =? c) l.

End Stats.

(* ================================================================== *)
(** ** Concrete worlds                                                 *)
(* ================================================================== *)

Module Samples.
Import Js Migrations Lineage.

Definition url : string := "postgresql://zipline@db:5432/zipline".

Definition quiet : string -> option Error := fun _ => None.

Definition two_steps : list string := ["001_init"; "002_urls"].

(** A reachable server with a two-step lineage that applies cleanly. *)
Definition two_step_cfg : Config := mkConfig two_steps true true quiet.

(** A store whose history matches no prefix of that lineage. *)
Definition drift_db : Database := mkDatabase true ["001_init"; "00x_manual"].

(** A server that does not answer. *)
Definition down_cfg : Config := mkConfig two_steps false true quiet.
Definition empty_db : Database := mkDatabase true [].

(** A database that does not exist yet. *)
Definition absent_db : Database := mkDatabase false [].

(** A lineage whose second migration fails when applied. *)
Definition broken_step : string -> option Error :=
  fun m => if String.eqb m "002_urls" then Some (mkError "P3018: migration failed to apply")
           else None.
Definition broken_cfg : Config :=
  mkConfig ["001_init"; "002_urls"; "003_views"] true true broken_step.

End Samples.

Module StatsSamples.
Import Js Stats.

(** A stand-in for [bytesToHuman]. *)
Definition human (n : Z) : string := if n <? 1024 then "< 1 kB" else ">= 1 kB".

Definition no_faults : Faults := fun _ => None.

(** The group-by-owner query, the second call, is rejected. *)
Definition second_call_fails : Faults :=
  fun n => if Nat.eqb n 1 then Some (mkError "P1017: Server has closed the connection")
           else None.

Definition empty_world : World := mkWorld (mkStore [] []) 0 [].

(** User A owns two png objects, user B one json object. *)
Definition alice : User := mkUser 1 "A".
Definition bob : User := mkUser 2 "B".
Definition demo_store : Store :=
  mkStore [mkImage 2 "application/json" 5; mkImage 1 "image/png" 3;
           mkImage 1 "image/png" 4]
          [alice; bob].
Definition demo_world : World := mkWorld demo_store 4096 [].

(** The same objects, stored in another order. *)
Definition shuffled_world : World :=
  mkWorld (mkStore [mkImage 1 "image/png" 4; mkImage 2 "application/json" 5;
                    mkImage 1 "image/png" 3]
                   [alice; bob]) 4096 [].

(** An object whose owner has no user row. *)
Definition dangling_world : World :=
  mkWorld (mkStore [mkImage 7 "image/png" 0] [alice]) 10 [].

End StatsSamples.

(* ================================================================== *)
(** ** Request logging: [log(url)]                                     *)
(* ================================================================== *)

Module Util.
Import Js Migrations.

(** A line written through [Logger.get(channel)]. *)
Record Entry : Type := mkEntry { channel : string; level : Level; text : string }.

(** [log(url)], lines 50-53: requests for Next.js internals are not
    logged, every other url goes to the 'url' logger at level info. *)
Definition log (url : string) : Prog (list Entry) unit :=
  if startsWith url "/_next" || startsWith url "/__nextjs" then ret tt
  else modify (fun written => written ++ [mkEntry "url" info url]).

End Util.

(* ================================================================== *)
(** ** The shorten endpoint: [handler(req, res)]                       *)
(* ================================================================== *)

Module Shorten.
Import Js Migrations.
Local Open Scope prog_scope.

(** *** Requests, rows and responses *)

(** The columns of [User] and [Url] that the handler reads or writes;
    [num] is the type of JavaScript numbers. *)
Record User : Type := mkUser { id : Z; username : string; token : string }.

Record Url (num : Type) : Type := mkUrl {
  url_id : string;
  url_vanity : option string;
  url_destination : string;
  url_userId : Z;
  url_maxViews : option num
}.
Arguments mkUrl {num} _ _ _ _ _.
Arguments url_id {num} _.
Arguments url_vanity {num} _.
Arguments url_destination {num} _.
Arguments url_userId {num} _.
Arguments url_maxViews {num} _.

(** [req.body], with its [url] and [vanity] members when they are strings. *)
Record Body : Type := mkBody { body_url : option string; body_vanity : option string }.

(** The parts of the request that the handler reads: the headers
    [authorization], [max-views], [zws] and [host], and the body. *)
Record Request : Type := mkRequest {
  authorization : option string;
  max_views : option string;
  zws : option string;
  host : option string;
  body : option Body
}.

(** The ways the handler answers. *)
Inductive Response : Type :=
| badRequest (msg : string)      (* res.badRequest(msg) *)
| unauthorized (msg : string)    (* res.unauthorized(msg) *)
| json (url : string).           (* res.json({ url }) *)

(** The members of [zconfig] that the handler reads. *)
Record Config : Type := mkConfig {
  core_https : bool;
  urls_route : string;
  urls_length : Z;
  discord_shorten : bool    (* config.discord?.shorten, as a condition *)
}.

(** The result of [createInvisURL]. *)
Record Invis : Type := mkInvis { invis : string }.

(** The awaited calls the handler can make. *)
Inductive Call (num : Type) : Type :=
| CFindUser (tok : string)        (* prisma.user.findFirst({ where: { token } }) *)
| CFindVanity (v : string)        (* prisma.url.findFirst({ where: { vanity } }) *)
| CCreateUrl (row : Url num)      (* prisma.url.create({ data }) *)
| CCreateInvis (length : Z) (urlId : string)   (* createInvisURL(length, id) *)
| CSendShorten (user : User) (row : Url num) (link : string).  (* sendShorten(...) *)
Arguments CFindUser {num} _.
Arguments CFindVanity {num} _.
Arguments CCreateUrl {num} _.
Arguments CCreateInvis {num} _ _.
Arguments CSendShorten {num} _ _ _.

(** The world of the handler: the two tables, the calls issued and the
    lines logged so far. *)
Record World (num : Type) : Type := mkWorld {
  users : list User;
  urls : list (Url num);
  issued : list (Call num);
  logged : list (Level * string)
}.
Arguments mkWorld {num} _ _ _ _.
Arguments users {num} _.
Arguments urls {num} _.
Arguments issued {num} _.
Arguments logged {num} _.

(** What lies outside the handler: JavaScript's [Number], [isNaN] and
    [< 0] on numbers, [JSON.stringify] and number printing, the draw of
    [randomChars], the answer of [createInvisURL], the configuration, and
    which awaited call (counted from 0) rejects. *)
Record Host (num : Type) : Type := mkHost {
  Number : string -> num;
  isNaN : num -> bool;
  negative : num -> bool;
  JSON_stringify : Url num -> string;
  String_of : Z -> string;
  randomChars : Z -> string;
  invisible : Z -> string -> option Invis;
  zconfig : Config;
  faults : nat -> option Error
}.
Arguments Number {num} _ _.
Arguments isNaN {num} _ _.
Arguments negative {num} _ _.
Arguments JSON_stringify {num} _ _.
Arguments String_of {num} _ _.
Arguments randomChars {num} _ _.
Arguments invisible {num} _ _ _.
Arguments zconfig {num} _.
Arguments faults {num} _ _.

(** A string used as a condition: undefined and the empty string are falsy. *)
Definition truthy (s : option string) : bool :=
  match s with
  | Some s => negb (String.eqb s "")
  | None => false
  end.

Section Handler.
Context {num : Type} (H : Host num).

(** An awaited call: it is recorded, then it rejects, or it answers and
    acts on the world. *)
Definition call {A} (c : Call num) (act : World num -> A * World num)
  : Prog (World num) A :=
  fun w =>
    let w' := mkWorld (users w) (urls w) (issued w ++ [c]) (logged w) in
    match faults H (List.length (issued w)) with
    | Some e => (Throw e, w')
    | None => let (a, w'') := act w' in (Val a, w'')
    end.

Definition user_findFirst (tok : string) : Prog (World num) (option User) :=
  call (CFindUser tok)
       (fun w => (find (fun u => String.eqb (token u) tok) (users w), w)).

Definition has_vanity (v : string) (row : Url num) : bool :=
  match url_vanity row with
  | Some v' => String.eqb v' v
  | None => false
  end.

Definition url_findFirst (v : string) : Prog (World num) (option (Url num)) :=
  call (CFindVanity v) (fun w => (find (has_vanity v) (urls w), w)).

Definition url_create (row : Url num) : Prog (World num) (Url num) :=
  call (CCreateUrl row)
       (fun w => (row, mkWorld (users w) (urls w ++ [row]) (issued w) (logged w))).

Definition createInvisURL (length : Z) (urlId : string)
  : Prog (World num) (option Invis) :=
  call (CCreateInvis length urlId) (fun w => (invisible H length urlId, w)).

Definition sendShorten (user : User) (row : Url num) (link : string)
  : Prog (World num) unit :=
  call (CSendShorten user row link) (fun w => (tt, w)).

Definition logger (lvl : Level) (msg : string) : Prog (World num) unit :=
  modify (fun w => mkWorld (users w) (urls w) (issued w) (logged w ++ [(lvl, msg)])).

(** [isNaN(maxUrlViews)] and [maxUrlViews < 0]; null is neither. *)
Definition is_nan (m : option num) : bool :=
  match m with Some n => isNaN H n | None => false end.
Definition below_zero (m : option num) : bool :=
  match m with Some n => negative H n | None => false end.

(** [req.headers['max-views'] ? Number(req.headers['max-views']) : null] *)
Definition max_url_views (req : Request) : option num :=
  match max_views req with
  | Some s => if truthy (Some s) then Some (Number H s) else None
  | None => None
  end.

(** [req.body.vanity ? req.body.vanity : invis ? invis.invis : url.id] *)
Definition slug (b : Body) (inv : option Invis) (row : Url num) : string :=
  match body_vanity b with
  | Some v => if truthy (Some v) then v
              else match inv with Some i => invis i | None => url_id row end
  | None => match inv with Some i => invis i | None => url_id row end
  end.

(** The link both [sendShorten] and the response carry. *)
Definition link (req : Request) (b : Body) (inv : option Invis) (row : Url num)
  : string :=
  ((if core_https (zconfig H) then "https" else "http") ++ "://"
     ++ interpolate (host req) ++ urls_route (zconfig H) ++ "/"
     ++ slug b inv row)%string.

(** [handler(req, res)], lines 124-186; the value is the response sent. *)
Definition handler (req : Request) : Prog (World num) Response :=
  match authorization req with
  | None => ret (badRequest "no authorization")
  | Some tok =>
  if negb (truthy (Some tok)) then ret (badRequest "no authorization") else
  user <- user_findFirst tok ;;
  match user with
  | None => ret (unauthorized "authorization incorect")
  | Some user =>
  match body req with
  | None => ret (badRequest "no body")
  | Some b =>
  match body_url b with
  | None => ret (badRequest "no url")
  | Some dest =>
  if negb (truthy (Some dest)) then ret (badRequest "no url") else
  let maxUrlViews := max_url_views req in
  if is_nan maxUrlViews then
    ret (badRequest "invalid max views (invalid number)")
  else if below_zero maxUrlViews then
    ret (badRequest "invalid max views (max views < 0)")
  else
  let rand := randomChars H (urls_length (zconfig H)) in
  taken <-
    (match body_vanity b with
     | Some v =>
         if truthy (Some v) then
           existing <- url_findFirst v ;;
           ret (match existing with Some _ => true | None => false end)
         else ret false
     | None => ret false
     end) ;;
  if (taken : bool) then ret (badRequest "vanity already exists") else
  url <- url_create (mkUrl rand (body_vanity b) dest (id user) maxUrlViews) ;;
  inv <-
    (if truthy (zws req) then createInvisURL (urls_length (zconfig H)) (url_id url)
     else ret None) ;;
  logger debug ("shortened " ++ JSON_stringify H url)%string ;;
  logger info ("User " ++ username user ++ " (" ++ String_of H (id user)
               ++ ") shortenned a url " ++ url_destination url
               ++ " (" ++ url_id url ++ ")")%string ;;
  (if discord_shorten (zconfig H) then sendShorten user url (link req b inv url)
   else ret tt) ;;
  ret (json (link req b inv url))
  end end end end.

End Handler.

(** *** Reading a run *)

Definition is_create {num} (c : Call num) : bool :=
  match c with CCreateUrl _ => true | _ => false end.

Definition is_send {num} (c : Call num) : bool :=
  match c with CSendShorten _ _ _ => true | _ => false end.

Definition is_invis {num} (c : Call num) : bool :=
  match c with CCreateInvis _ _ => true | _ => false end.

(** The vanities in use: non-empty and not null. *)
Fixpoint vanities {num} (rows : list (Url num)) : list string :=
  match rows with
  | [] => []
  | row :: rest =>
      match url_vanity row with
      | Some v => if truthy (Some v) then v :: vanities rest else vanities rest
      | None => vanities rest
      end
  end.

Definition is_lookup {num} (c : Call num) : bool :=
  match c with CFindUser _ | CFindVanity _ => true | _ => false end.

Section Accepted.
Context {num : Type} (H : Host num).

(** The row an accepted request asks [prisma.url.create] for. *)
Definition new_row (req : Request) (b : Body) (dest : string) (user : User)
  : Url num :=
  mkUrl (randomChars H (urls_length (zconfig H))) (body_vanity b) dest
        (id user) (max_url_views H req).

(** The vanity lookup of an accepted request, when it asks for a vanity. *)
Definition vanity_lookup (b : Body) : list (Call num) :=
  match body_vanity b with
  | Some v => if truthy (Some v) then [CFindVanity v] else []
  | None => []
  end.

(** The invisible id of an accepted request, when it asks for one. *)
Definition invis_of (req : Request) (row : Url num) : option Invis :=
  if truthy (zws req) then invisible H (urls_length (zconfig H)) (url_id row)
  else None.

(** The world an accepted request leaves behind. *)
Definition accepted_world (req : Request) (tok : string) (user : User)
    (b : Body) (dest : string) (w : World num) : World num :=
  let row := new_row req b dest user in
  let l := link H req b (invis_of req row) row in
  mkWorld (users w) (urls w ++ [row])
    (issued w ++ [CFindUser tok] ++ vanity_lookup b ++ [CCreateUrl row]
       ++ (if truthy (zws req)
           then [CCreateInvis (urls_length (zconfig H)) (url_id row)] else [])
       ++ (if discord_shorten (zconfig H) then [CSendShorten user row l] else []))
    (logged w ++
     [(debug, ("shortened " ++ JSON_stringify H row)%string);
      (info, ("User " ++ username user ++ " (" ++ String_of H (id user)
              ++ ") shortenned a url " ++ dest ++ " (" ++ url_id row ++ ")")%string)]).

(** No call issued from [w] on is made to fail. *)
Definition no_faults_from (w : World num) : Prop :=
  forall n, (List.length (issued w) <= n)%nat -> faults H n = None.

End Accepted.

(** The response refuses the request. *)
Definition refusal (r : Response) : bool :=
  match r with json _ => false | _ => true end.

End Shorten.

Module ShortenSamples.
Import Js Shorten.

(** A stand-in for JavaScript numbers: an integer, or NaN. *)
Definition parse (s : string) : option Z :=
  if String.eqb s "10" then Some 10
  else if String.eqb s "-1" then Some (-1)
  else if String.eqb s "0" then Some 0
  else None.

Definition plain_config : Config := mkConfig true "/go" 6 false.

Definition plain_host : Host (option Z) :=
  {| Number := parse;
     isNaN := fun n => match n with None => true | Some _ => false end;
     negative := fun n => match n with Some z => z <? 0 | None => false end;
     JSON_stringify := fun row => ("{id:" ++ url_id row ++ "}")%string;
     String_of := fun _ => "1";
     randomChars := fun _ => "a1b2c3";
     invisible := fun _ _ => Some (mkInvis "zw");
     zconfig := plain_config;
     faults := fun _ => None |}.

Definition carol : User := mkUser 1 "carol" "secret".

Definition start : World (option Z) := mkWorld [carol] [] [] [].

Definition vanity_request : Request :=
  mkRequest (Some "secret") (Some "10") None (Some "z.example")
            (Some (mkBody (Some "https://example.org/a") (Some "docs"))).


Definition anonymous_request : Request :=
  mkRequest None None None (Some "z.example") None.

Definition stranger_request : Request :=
  mkRequest (Some "guess") None None (Some "z.example") None.

Definition negative_request : Request :=
  mkRequest (Some "secret") (Some "-1") None (Some "z.example")
            (Some (mkBody (Some "https://example.org/a") None)).

(** A request that asks for a vanity and for an invisible id. *)
Definition zws_vanity_request : Request :=
  mkRequest (Some "secret") None (Some "true") (Some "z.example")
            (Some (mkBody (Some "https://example.org/a") (Some "docs"))).

(** A request that asks for an invisible id only. *)
Definition zws_request : Request :=
  mkRequest (Some "secret") None (Some "true") (Some "z.example")
            (Some (mkBody (Some "https://example.org/a") None)).

Definition bodiless_request : Request :=
  mkRequest (Some "secret") (Some "-1") None (Some "z.example") None.

(** The same host, where the third call is rejected. *)
Definition flaky_host : Host (option Z) :=
  {| Number := parse;
     isNaN := isNaN plain_host;
     negative := negative plain_host;
     JSON_stringify := JSON_stringify plain_host;
     String_of := String_of plain_host;
     randomChars := randomChars plain_host;
     invisible := invisible plain_host;
     zconfig := plain_config;
     faults := fun n => if Nat.eqb n 2 then Some (mkError "P2002: Unique constraint failed")
                        else None |}.

End ShortenSamples.

Module MoreSamples.
Import Js Migrations Lineage.

(** An engine whose constructor throws: the schema file is missing. *)
Definition schemaless : Engine Database :=
  {| newMigrate := fun _ => Some (mkError "Could not find a schema.prisma file");
     ensureDatabaseExists := fun d => inr d;
     diagnoseMigrationHistory := fun _ => inr (mkDiagnose None);
     applyMigrations := fun d => (None, d) |}.

End MoreSamples.

(* ================================================================== *)
(** ** Facts about [migrations]                                        *)
(* ================================================================== *)

Ltac run_migrations :=
  unfold Migrations.migrations, Js.try_catch, Migrations.migrations_try,
    Migrations.migrations_catch, Js.try_finally, Migrations.new_Migrate,
    Migrations.ensure_database_exists,
    Migrations.migrate_diagnoseMigrationHistory,
    Migrations.migrate_applyMigrations, Migrations.migrate_stop,
    Migrations.logger, Migrations.emit, Js.modify, Js.bind, Js.ret, Js.throw,
    Js.exit;
  cbn [Migrations.db Migrations.trace fst snd].

Section MigrationsFacts.
Import Js Migrations.
Context {DB : Type} (E : Engine DB).

Lemma classify_behind (d : DiagnoseOutput) :
  is_behind d = true <-> classify d = behind.
Proof.
  unfold is_behind, classify. destruct (history d) as [h|].
  - destruct (String.eqb (diagnostic h) "databaseIsBehind"); split; congruence.
  - split; congruence.
Qed.

Lemma classify_not_behind (d : DiagnoseOutput) :
  classify d <> behind -> is_behind d = false.
Proof.
  intros H. destruct (is_behind d) eqn:Hb; [|reflexivity].
  apply classify_behind in Hb. contradiction.
Qed.

(** The [catch] block always ends the process with status 1, after one
    of its two reports. *)
Lemma migrations_catch_run (url : option string) (e : Error) (w : World DB) :
  migrations_catch url e w =
    (Exit 1,
     mkWorld (db w)
       (trace w ++
        (if startsWith (message e) "P1001"
         then [Log error (unreachable_message url)]
         else [Log error failed_message; LogError e]) ++
        [ProcessExit 1])).
Proof.
  run_migrations.
  destruct (startsWith (message e) "P1001"); cbn [db trace];
    rewrite <- !app_assoc; reflexivity.
Qed.

(** A diagnosis other than "behind": nothing is applied. *)
Lemma migrations_not_behind (url : option string) (w : World DB) (db' : DB)
    (d : DiagnoseOutput) :
  newMigrate E (db w) = None ->
  ensureDatabaseExists E (db w) = inr db' ->
  diagnoseMigrationHistory E db' = inr d ->
  is_behind d = false ->
  migrations E url w = (Val tt, mkWorld db' (trace w ++ up_to_date_events)).
Proof.
  intros Hn He Hd Hb. run_migrations.
  rewrite Hn. cbn [db trace]. rewrite He. cbn [db trace]. rewrite Hd, Hb.
  cbn [db trace]. rewrite <- !app_assoc. reflexivity.
Qed.

(** A "behind" diagnosis: one [applyMigrations] call, then [stop]. *)
Lemma migrations_behind (url : option string) (w : World DB) (db' : DB)
    (d : DiagnoseOutput) :
  newMigrate E (db w) = None ->
  ensureDatabaseExists E (db w) = inr db' ->
  diagnoseMigrationHistory E db' = inr d ->
  is_behind d = true ->
  migrations E url w =
    match applyMigrations E db' with
    | (None, d2) => (Val tt, mkWorld d2 (trace w ++ behind_events))
    | (Some e, d2) =>
        (Exit 1,
         mkWorld d2
           (trace w ++ behind_events ++
            (if startsWith (message e) "P1001"
             then [Log error (unreachable_message url)]
             else [Log error failed_message; LogError e]) ++
            [ProcessExit 1]))
    end.
Proof.
  intros Hn He Hd Hb. run_migrations.
  rewrite Hn. cbn [db trace]. rewrite He. cbn [db trace]. rewrite Hd, Hb.
  cbn [db trace]. destruct (applyMigrations E db') as [[e|] d2]; cbn [db trace].
  - destruct (startsWith (message e) "P1001"); cbn [db trace];
      rewrite <- !app_assoc; reflexivity.
  - rewrite <- !app_assoc. reflexivity.
Qed.

(** A failure before the branch: the [catch] block runs with the session
    that [new Migrate] opened still open. *)
Lemma migrations_ensure_fails (url : option string) (w : World DB) (e : Error) :
  newMigrate E (db w) = None ->
  ensureDatabaseExists E (db w) = inl e ->
  migrations E url w =
    (Exit 1,
     mkWorld (db w)
       (trace w ++
        [Log debug "establishing database connection"; Connected;
         Log debug "ensuring database exists, if not creating database - may error if no permissions";
         EnsureCall] ++
        (if startsWith (message e) "P1001"
         then [Log error (unreachable_message url)]
         else [Log error failed_message; LogError e]) ++
        [ProcessExit 1])).
Proof.
  intros Hn He. run_migrations.
  rewrite Hn. cbn [db trace]. rewrite He. cbn [db trace].
  destruct (startsWith (message e) "P1001"); cbn [db trace];
    rewrite <- !app_assoc; reflexivity.
Qed.

Lemma migrations_diagnose_fails (url : option string) (w : World DB) (db' : DB)
    (e : Error) :
  newMigrate E (db w) = None ->
  ensureDatabaseExists E (db w) = inr db' ->
  diagnoseMigrationHistory E db' = inl e ->
  migrations E url w =
    (Exit 1,
     mkWorld db'
       (trace w ++
        [Log debug "establishing database connection"; Connected;
         Log debug "ensuring database exists, if not creating database - may error if no permissions";
         EnsureCall; DiagnoseCall] ++
        (if startsWith (message e) "P1001"
         then [Log error (unreachable_message url)]
         else [Log error failed_message; LogError e]) ++
        [ProcessExit 1])).
Proof.
  intros Hn He Hd. run_migrations.
  rewrite Hn. cbn [db trace]. rewrite He. cbn [db trace]. rewrite Hd.
  cbn [db trace].
  destruct (startsWith (message e) "P1001"); cbn [db trace];
    rewrite <- !app_assoc; reflexivity.
Qed.

Lemma session_open_app (t1 t2 : list Event) (b : bool) :
  session_open (t1 ++ t2) b = session_open t2 (session_open t1 b).
Proof.
  revert b. induction t1 as [|ev t1 IH]; intros b; [reflexivity|].
  destruct ev; cbn; apply IH.
Qed.

(** Once diagnosis has answered, every way out passes [migrate.stop()]. *)
Lemma migrations_releases_after_diagnosis (url : option string) (w : World DB)
    (db' : DB) (d : DiagnoseOutput) :
  newMigrate E (db w) = None ->
  ensureDatabaseExists E (db w) = inr db' ->
  diagnoseMigrationHistory E db' = inr d ->
  session_open (trace (snd (migrations E url w))) false = false.
Proof.
  intros Hn He Hd. destruct (is_behind d) eqn:Hb.
  - rewrite (migrations_behind url w db' d Hn He Hd Hb).
    destruct (applyMigrations E db') as [[e|] d2]; cbn [snd trace];
      rewrite !session_open_app; cbn.
    + destruct (startsWith (message e) "P1001"); reflexivity.
    + reflexivity.
  - rewrite (migrations_not_behind url w db' d Hn He Hd Hb). cbn [snd trace].
    rewrite session_open_app. reflexivity.
Qed.

(** A failure of either call made before the branch leaves the session
    that [new Migrate] opened still open when the process exits. *)
Lemma early_failure_leaves_session_open (url : option string) (w : World DB)
    (e : Error) :
  newMigrate E (db w) = None ->
  (ensureDatabaseExists E (db w) = inl e \/
   exists db', ensureDatabaseExists E (db w) = inr db' /\
               diagnoseMigrationHistory E db' = inl e) ->
  fst (migrations E url w) = Exit 1 /\
  session_open (trace (snd (migrations E url w))) false = true.
Proof.
  intros Hn [He|(db' & He & Hd)].
  - rewrite (migrations_ensure_fails url w e Hn He). cbn [fst snd trace].
    split; [reflexivity|]. rewrite !session_open_app. cbn.
    destruct (startsWith (message e) "P1001"); reflexivity.
  - rewrite (migrations_diagnose_fails url w db' e Hn He Hd). cbn [fst snd trace].
    split; [reflexivity|]. rewrite !session_open_app. cbn.
    destruct (startsWith (message e) "P1001"); reflexivity.
Qed.

End MigrationsFacts.

Section MigrationsClaims.
Import Js Migrations Lineage Samples.
Context {DB : Type} (E : Engine DB).

(** C1 (as amended).  For every diagnosis outcome other than upToDate and
    behind (a driftedOrUnknown history), [migrations] applies nothing, but
    it is not fatal: it logs that the database is up to date, calls
    [migrate.stop()] and returns normally, without terminating the
    process. *)
Theorem C1_drift_is_treated_as_up_to_date (url : option string) (w : World DB)
    (db' : DB) (d : DiagnoseOutput) :
  newMigrate E (db w) = None ->
  ensureDatabaseExists E (db w) = inr db' ->
  diagnoseMigrationHistory E db' = inr d ->
  classify d = driftedOrUnknown ->
  let r := migrations E url w in
  fst r = Val tt /\
  ~ fatal r /\
  db (snd r) = db' /\
  trace (snd r) =
    trace w ++
    [Log debug "establishing database connection"; Connected;
     Log debug "ensuring database exists, if not creating database - may error if no permissions";
     EnsureCall; DiagnoseCall;
     Log debug "exiting migrations engine - database is up to date";
     Stop] /\
  In Stop (trace (snd r)) /\
  apply_calls (trace (snd r)) = apply_calls (trace w).
Proof.
  intros Hn He Hd Hc r. subst r.
  rewrite (migrations_not_behind E url w db' d Hn He Hd)
    by (apply classify_not_behind; congruence).
  cbn [fst snd db trace]. repeat split.
  - intros [c Hc']. discriminate Hc'.
  - apply in_or_app. right. cbn. tauto.
  - unfold apply_calls. rewrite filter_app, length_app. cbn. lia.
Qed.

(** C4.  When the [try] block throws, an error whose message starts with
    the P1001 marker is reported by the unreachable-database message,
    which contains the configured connection string; every other error is
    reported by the generic message followed by the error itself; either
    way the process exits with status 1. *)
Theorem C4_failure_classification (u : string) (w w1 : World DB) (e : Error) :
  migrations_try E w = (Throw e, w1) ->
  let r := migrations E (Some u) w in
  fst r = Exit 1 /\
  db (snd r) = db w1 /\
  (startsWith (message e) "P1001" = true ->
     trace (snd r) =
       trace w1 ++ [Log error (unreachable_message (Some u)); ProcessExit 1]) /\
  (startsWith (message e) "P1001" = false ->
     trace (snd r) =
       trace w1 ++ [Log error failed_message; LogError e; ProcessExit 1]) /\
  contains (unreachable_message (Some u)) u /\
  unreachable_message (Some u) <> failed_message.
Proof.
  intros Ht r. subst r. unfold migrations, try_catch. rewrite Ht.
  rewrite migrations_catch_run. cbn [fst snd db trace].
  repeat split.
  - intros ->. reflexivity.
  - intros ->. reflexivity.
  - exists "Unable to connect to database `", "`, check your database connection".
    reflexivity.
  - unfold unreachable_message, failed_message. cbn. discriminate.
Qed.

End MigrationsClaims.

Section MigrationsRuns.
Import Js Migrations Lineage Samples.

Lemma C1_drift_witness :
  fst (run two_step_cfg (Some url) drift_db) = Val tt /\
  ~ fatal (run two_step_cfg (Some url) drift_db).
Proof.
  pose proof (C1_drift_is_treated_as_up_to_date (engine two_step_cfg) (Some url)
                (mkWorld drift_db []) drift_db
                (mkDiagnose (diagnose_history two_step_cfg drift_db))
                eq_refl eq_refl eq_refl eq_refl) as H.
  cbv zeta in H. destruct H as [H1 [H2 _]]. split; [exact H1 | exact H2].
Defined.

(** The claim of C1 fails on a store whose history has diverged from the
    lineage: the diagnosis is driftedOrUnknown, and the call returns
    without terminating the process. *)
Lemma C1_drift_is_not_fatal :
  diagnoseMigrationHistory (engine two_step_cfg) drift_db
    = inr (mkDiagnose (Some (mkHistory "historiesDiverge"))) /\
  classify (mkDiagnose (Some (mkHistory "historiesDiverge"))) = driftedOrUnknown /\
  fst (run two_step_cfg (Some url) drift_db) = Val tt /\
  ~ fatal (run two_step_cfg (Some url) drift_db).
Proof.
  repeat split; try reflexivity.
  intros [c Hc]. vm_compute in Hc. discriminate Hc.
Qed.

(** C2 (the code at the failing input).  When the server does not answer,
    [ensureDatabaseExists] throws after [new Migrate] has opened the
    session; the process exits with status 1 and [migrate.stop()] was
    never called. *)
Theorem C2_session_left_open_on_early_failure :
  let r := run down_cfg (Some url) empty_db in
  fst r = Exit 1 /\
  In Connected (trace (snd r)) /\
  ~ In Stop (trace (snd r)) /\
  session_open (trace (snd r)) false = true.
Proof.
  cbv zeta. repeat split.
  - vm_compute. tauto.
  - vm_compute. intros H.
    repeat (destruct H as [H|H]; [discriminate H|]). exact H.
Qed.

Lemma C4_unreachable_witness :
  fst (run down_cfg (Some url) empty_db) = Exit 1 /\
  trace (snd (run down_cfg (Some url) empty_db)) =
    [Log debug "establishing database connection"; Connected;
     Log debug "ensuring database exists, if not creating database - may error if no permissions";
     EnsureCall;
     Log error "Unable to connect to database `postgresql://zipline@db:5432/zipline`, check your database connection";
     ProcessExit 1].
Proof.
  pose proof (C4_failure_classification (engine down_cfg) url
                (mkWorld empty_db []) _ unreachable_error eq_refl) as H.
  cbv zeta in H. destruct H as [H1 [_ [H3 _]]].
  split; [exact H1 | exact (H3 eq_refl)].
Defined.

End MigrationsRuns.

(* ================================================================== *)
(** ** [migrations] against a migration store                          *)
(* ================================================================== *)

Section LineageFacts.
Import Js Migrations Lineage Samples.

Lemma is_prefix_app (a b : list string) : is_prefix a (a ++ b) = true.
Proof.
  induction a as [|x a IH]; [reflexivity|].
  cbn. rewrite String.eqb_refl. exact IH.
Qed.

Lemma is_prefix_refl (a : list string) : is_prefix a a = true.
Proof.
  rewrite <- (app_nil_r a) at 2. apply is_prefix_app.
Qed.

Lemma is_prefix_longer (a : list string) (m : string) (rest : list string) :
  is_prefix (a ++ m :: rest) a = false.
Proof.
  induction a as [|x a IH]; [reflexivity|].
  cbn. rewrite String.eqb_refl. exact IH.
Qed.

Lemma diagnose_up_to_date (c : Config) (d : Database) :
  applied d = lineage c -> diagnose_history c d = None.
Proof.
  intros H. unfold diagnose_history. rewrite H, is_prefix_refl. reflexivity.
Qed.

Lemma diagnose_behind (c : Config) (d : Database) (m : string) (rest : list string) :
  lineage c = applied d ++ m :: rest ->
  diagnose_history c d = Some (mkHistory "databaseIsBehind").
Proof.
  intros H. unfold diagnose_history.
  rewrite H, is_prefix_app, is_prefix_longer. reflexivity.
Qed.

Lemma pending_app (c : Config) (d : Database) (rest : list string) :
  lineage c = applied d ++ rest -> pending c d = rest.
Proof.
  intros H. unfold pending. rewrite H. clear H.
  induction (applied d) as [|x a IH]; [reflexivity | exact IH].
Qed.

(** Where [apply_pending] stops: at the first migration that fails, with
    exactly the ones before it added, in order. *)
Lemma apply_pending_split (err : string -> option Error) (todo done : list string) :
  exists ok bad,
    todo = ok ++ bad /\
    Forall (fun x => err x = None) ok /\
    snd (apply_pending err todo done) = done ++ ok /\
    match bad with
    | [] => fst (apply_pending err todo done) = None
    | x :: _ => err x <> None /\ fst (apply_pending err todo done) = err x
    end.
Proof.
  revert done. induction todo as [|m todo IH]; intros done.
  - exists [], []. cbn. rewrite app_nil_r. auto.
  - cbn. destruct (err m) as [e|] eqn:Hm.
    + exists [], (m :: todo). cbn. rewrite app_nil_r, Hm.
      repeat split; auto. discriminate.
    + destruct (IH (done ++ [m])) as (ok & bad & Heq & Hok & Hsnd & Hbad).
      exists (m :: ok), bad. rewrite Hsnd, <- app_assoc. cbn.
      repeat split; auto. now rewrite Heq.
Qed.

Lemma apply_pending_all (err : string -> option Error) (todo done : list string) :
  (forall m, In m todo -> err m = None) ->
  apply_pending err todo done = (None, done ++ todo).
Proof.
  revert done. induction todo as [|m todo IH]; intros done H.
  - cbn. now rewrite app_nil_r.
  - cbn. rewrite (H m (or_introl eq_refl)).
    rewrite IH by (intros x Hx; apply H; now right).
    now rewrite <- app_assoc.
Qed.

(** A run over an existing, reachable store that is up to date. *)
Lemma run_up_to_date (c : Config) (url : option string) (d : Database) :
  reachable c = true -> present d = true -> applied d = lineage c ->
  run c url d = (Val tt, mkWorld d up_to_date_events).
Proof.
  intros Hr Hp Ha. unfold run.
  rewrite (migrations_not_behind (engine c) url (mkWorld d []) d
             (mkDiagnose (diagnose_history c d))).
  - reflexivity.
  - reflexivity.
  - cbn. now rewrite Hr, Hp.
  - cbn. now rewrite Hr.
  - unfold is_behind. cbn. now rewrite diagnose_up_to_date.
Qed.

(** A run over an existing, reachable store that is behind. *)
Lemma run_behind (c : Config) (url : option string) (d : Database)
    (m : string) (rest : list string) :
  reachable c = true -> present d = true ->
  lineage c = applied d ++ m :: rest ->
  run c url d =
    match apply_pending (apply_error c) (m :: rest) (applied d) with
    | (None, a) => (Val tt, mkWorld (mkDatabase true a) behind_events)
    | (Some e, a) =>
        (Exit 1,
         mkWorld (mkDatabase true a)
           (behind_events ++
            (if startsWith (message e) "P1001"
             then [Log error (unreachable_message url)]
             else [Log error failed_message; LogError e]) ++
            [ProcessExit 1]))
    end.
Proof.
  intros Hr Hp Hl. unfold run.
  rewrite (migrations_behind (engine c) url (mkWorld d []) d
             (mkDiagnose (diagnose_history c d))).
  - cbn [engine applyMigrations]. rewrite Hr. cbn [negb].
    rewrite (pending_app c d (m :: rest) Hl), Hp.
    destruct (apply_pending (apply_error c) (m :: rest) (applied d)) as [[e|] a];
      reflexivity.
  - reflexivity.
  - cbn. now rewrite Hr, Hp.
  - cbn. now rewrite Hr.
  - unfold is_behind. cbn. now rewrite (diagnose_behind c d m rest Hl).
Qed.

Lemma apply_calls_behind (t : list Event) :
  apply_calls (behind_events ++ t) = S (apply_calls t).
Proof. reflexivity. Qed.

End LineageFacts.

Section LineageClaims.
Import Js Migrations Lineage Samples.

(** Creating the database first makes no other difference to the run. *)
Lemma run_absent (c : Config) (url : option string) :
  reachable c = true -> can_create c = true ->
  run c url (mkDatabase false []) = run c url (mkDatabase true []).
Proof.
  intros Hr Hc. unfold run. run_migrations. cbn. rewrite Hr, Hc. reflexivity.
Qed.

(** A run over a reachable empty store whose migrations all apply. *)
Lemma run_fresh (c : Config) (url : option string) :
  reachable c = true ->
  (forall m, In m (lineage c) -> apply_error c m = None) ->
  run c url (mkDatabase true []) =
    (Val tt,
     mkWorld (mkDatabase true (lineage c))
       (match lineage c with [] => up_to_date_events | _ => behind_events end)).
Proof.
  intros Hr Hok. destruct (lineage c) as [|m rest] eqn:Hl.
  - rewrite run_up_to_date; auto.
  - rewrite (run_behind c url (mkDatabase true []) m rest Hr eq_refl Hl).
    cbn [applied]. rewrite apply_pending_all; [reflexivity|].
    intros x Hx. apply Hok. exact Hx.
Qed.

(** C3.  Against a reachable store: (a) if the store is already up to
    date, a call only diagnoses, issues no apply call and leaves the store
    as it is, and so does the call after it; (b) if the store is a freshly
    created empty database and every migration applies, a call leaves
    exactly the expected lineage applied, through one apply call, and the
    call after it is a no-op. *)
Theorem C3_idempotence (c : Config) (url : option string) :
  reachable c = true ->
  (forall d, present d = true -> applied d = lineage c ->
     let r1 := run c url d in
     let r2 := run c url (db (snd r1)) in
     fst r1 = Val tt /\ db (snd r1) = d /\ trace (snd r1) = up_to_date_events /\
     apply_calls (trace (snd r1)) = 0%nat /\
     fst r2 = Val tt /\ db (snd r2) = d /\ trace (snd r2) = up_to_date_events /\
     apply_calls (trace (snd r2)) = 0%nat) /\
  (forall d, applied d = [] -> present d = true \/ can_create c = true ->
     (forall m, In m (lineage c) -> apply_error c m = None) ->
     let r1 := run c url d in
     let r2 := run c url (db (snd r1)) in
     fst r1 = Val tt /\
     applied (db (snd r1)) = lineage c /\
     (apply_calls (trace (snd r1)) <= 1)%nat /\
     (lineage c <> [] -> apply_calls (trace (snd r1)) = 1%nat) /\
     fst r2 = Val tt /\ db (snd r2) = db (snd r1) /\
     trace (snd r2) = up_to_date_events /\
     apply_calls (trace (snd r2)) = 0%nat).
Proof.
  intros Hr. split.
  - intros d Hp Ha r1 r2. subst r1 r2.
    rewrite (run_up_to_date c url d Hr Hp Ha). cbn [fst snd db trace].
    rewrite (run_up_to_date c url d Hr Hp Ha). cbn [fst snd db trace].
    repeat split; reflexivity.
  - intros d Ha Hp Hok r1 r2. subst r1 r2.
    assert (Hrun : run c url d = run c url (mkDatabase true [])).
    { destruct d as [p a]. cbn in Ha, Hp. subst a. destruct p.
      - reflexivity.
      - apply run_absent; [exact Hr|]. destruct Hp as [Hp|Hp]; [discriminate|exact Hp]. }
    rewrite Hrun, (run_fresh c url Hr Hok). cbn [fst snd db trace applied].
    rewrite (run_up_to_date c url (mkDatabase true (lineage c)) Hr eq_refl eq_refl).
    cbn [fst snd db trace].
    destruct (lineage c) as [|m rest]; repeat split; try reflexivity;
      try (cbn; lia).
    intros H. now contradiction H.
Qed.

(** C5.  When the store is behind, [migrations] issues one apply call,
    which applies the pending migrations in lineage order.  If they all
    apply, the store holds the whole lineage and the call returns; if one
    fails, the migrations before it stay applied, nothing is rolled back,
    and the process exits with status 1. *)
Theorem C5_behind_applies_in_order (c : Config) (url : option string)
    (d : Database) (m : string) (rest : list string) :
  reachable c = true ->
  present d = true ->
  lineage c = applied d ++ m :: rest ->
  let r := run c url d in
  apply_calls (trace (snd r)) = 1%nat /\
  session_open (trace (snd r)) false = false /\
  exists ok bad,
    m :: rest = ok ++ bad /\
    Forall (fun x => apply_error c x = None) ok /\
    applied (db (snd r)) = applied d ++ ok /\
    match bad with
    | [] => fst r = Val tt /\ applied (db (snd r)) = lineage c
    | x :: _ =>
        apply_error c x <> None /\ fst r = Exit 1 /\
        In (ProcessExit 1) (trace (snd r))
    end.
Proof.
  intros Hr Hp Hl r. subst r.
  rewrite (run_behind c url d m rest Hr Hp Hl).
  destruct (apply_pending_split (apply_error c) (m :: rest) (applied d))
    as (ok & bad & Heq & Hok & Hsnd & Hbad).
  destruct (apply_pending (apply_error c) (m :: rest) (applied d)) as [[e|] a] eqn:Hap;
    cbn [fst snd] in Hsnd, Hbad; cbn [fst snd db trace applied].
  - split; [|split].
    + rewrite apply_calls_behind.
      destruct (startsWith (message e) "P1001"); reflexivity.
    + destruct (startsWith (message e) "P1001"); reflexivity.
    + exists ok, bad. repeat split; auto.
      destruct bad as [|x bad]; [discriminate Hbad|].
      destruct Hbad as [Hx _]. repeat split; auto.
      apply in_or_app. right. apply in_or_app. right. now left.
  - split; [|split]; try reflexivity.
    exists ok, bad. repeat split; auto.
    destruct bad as [|x bad].
    + split; [reflexivity|]. rewrite Hl, Heq, app_nil_r, Hsnd. reflexivity.
    + destruct Hbad as [Hx Hn]. rewrite <- Hn in Hx. now contradiction Hx.
Qed.

End LineageClaims.

Section LineageRuns.
Import Js Migrations Lineage Samples.

Lemma C3_idempotence_witness :
  fst (run two_step_cfg (Some url) absent_db) = Val tt /\
  applied (db (snd (run two_step_cfg (Some url) absent_db))) = two_steps /\
  apply_calls (trace (snd (run two_step_cfg (Some url) absent_db))) = 1%nat /\
  fst (run two_step_cfg (Some url) (db (snd (run two_step_cfg (Some url) absent_db)))) = Val tt /\
  apply_calls
    (trace (snd (run two_step_cfg (Some url)
                   (db (snd (run two_step_cfg (Some url) absent_db)))))) = 0%nat.
Proof.
  pose proof (C3_idempotence two_step_cfg (Some url) eq_refl) as [_ H].
  specialize (H absent_db eq_refl (or_intror eq_refl) (fun m _ => eq_refl)).
  cbv zeta in H. destruct H as (H1 & H2 & _ & H4 & H5 & _ & _ & H8).
  split; [exact H1|]. split; [exact H2|].
  split; [apply H4; discriminate|]. split; [exact H5 | exact H8].
Defined.

Lemma C5_failure_witness :
  fst (run broken_cfg (Some url) empty_db) = Exit 1 /\
  applied (db (snd (run broken_cfg (Some url) empty_db))) = ["001_init"] /\
  apply_calls (trace (snd (run broken_cfg (Some url) empty_db))) = 1%nat.
Proof.
  pose proof (C5_behind_applies_in_order broken_cfg (Some url) empty_db
                "001_init" ["002_urls"; "003_views"] eq_refl eq_refl eq_refl) as H.
  cbv zeta in H. destruct H as (H1 & _ & _).
  split; [reflexivity|]. split; [reflexivity | exact H1].
Defined.

End LineageRuns.

(* ================================================================== *)
(** ** Facts about [Array.prototype.sort] with a descending comparator  *)
(* ================================================================== *)

Section SortFacts.
Import Js Stats.
Context {A : Type} (key : A -> Z).

Lemma insert_perm (x : A) (l : list A) : Permutation (insert (desc key) x l) (x :: l).
Proof.
  induction l as [|y l IH]; [reflexivity|].
  cbn. destruct (desc key x y <=? 0); [reflexivity|].
  rewrite IH. apply perm_swap.
Qed.

Lemma sort_perm (l : list A) : Permutation (sort (desc key) l) l.
Proof.
  induction l as [|x l IH]; [reflexivity|].
  cbn. rewrite insert_perm. now constructor.
Qed.

Lemma insert_descending (x : A) (l : list A) :
  descending key l -> descending key (insert (desc key) x l).
Proof.
  unfold descending. induction l as [|y l IH]; intros Hs.
  - cbn. constructor; constructor.
  - apply StronglySorted_inv in Hs. destruct Hs as [Hl Hy].
    cbn. unfold desc at 1. destruct (key y - key x <=? 0) eqn:Hc.
    + apply Z.leb_le in Hc. constructor.
      * constructor; assumption.
      * constructor; [lia|].
        eapply Forall_impl; [|exact Hy]. cbn. intros a Ha. lia.
    + apply Z.leb_gt in Hc. constructor.
      * apply IH. exact Hl.
      * eapply Permutation_Forall; [symmetry; apply insert_perm|].
        constructor; [lia | exact Hy].
Qed.

Lemma sort_descending (l : list A) : descending key (sort (desc key) l).
Proof.
  induction l as [|x l IH].
  - constructor.
  - cbn. apply insert_descending. exact IH.
Qed.

Lemma insert_with_count (c : Z) (x : A) (l : list A) :
  with_count key c (insert (desc key) x l) = with_count key c (x :: l).
Proof.
  unfold with_count. induction l as [|y l IH]; [reflexivity|].
  cbn. unfold desc at 1. destruct (key y - key x <=? 0) eqn:Hc; [reflexivity|].
  apply Z.leb_gt in Hc. cbn. rewrite IH. cbn.
  destruct (key x =? c) eqn:Hx; [|reflexivity].
  apply Z.eqb_eq in Hx.
  destruct (key y =? c) eqn:Hy; [|reflexivity].
  apply Z.eqb_eq in Hy. lia.
Qed.

(** Stability: entries of equal count keep their relative order. *)
Lemma sort_with_count (c : Z) (l : list A) :
  with_count key c (sort (desc key) l) = with_count key c l.
Proof.
  induction l as [|x l IH]; [reflexivity|].
  cbn [sort]. rewrite insert_with_count. unfold with_count in *. cbn.
  now rewrite IH.
Qed.

End SortFacts.

(* ================================================================== *)
(** ** Facts about [getStats]                                          *)
(* ================================================================== *)

Section StatsFacts.
Import Js Stats.
Variable bytesToHuman : Z -> string.
Variable faults : Faults.

Lemma advance_advance (w : World) (a b : list Query) :
  advance (advance w a) b = advance w (a ++ b).
Proof. unfold advance. cbn. now rewrite app_assoc. Qed.

Lemma issued_advance (w : World) (a : list Query) :
  List.length (issued (advance w a)) = (List.length (issued w) + List.length a)%nat.
Proof. unfold advance. cbn. apply length_app. Qed.

Lemma length_queries (s : Store) :
  List.length (queries s) = (List.length (group_by_user s) + 6)%nat.
Proof. unfold queries. rewrite !length_app, length_map. cbn. lia. Qed.

Lemma push_types_map (rows : list ByType) (acc : list TypeCount) :
  push_types rows acc = acc ++ map type_entry rows.
Proof.
  revert acc. induction rows as [|row rows IH]; intros acc; cbn.
  - now rewrite app_nil_r.
  - rewrite IH, <- app_assoc. reflexivity.
Qed.

(** *** One awaited call *)

Lemma call_run {A} (q : Query) (answer : World -> A) (w : World) :
  faults (List.length (issued w)) = None ->
  call faults q answer w = (Val (answer w), advance w [q]).
Proof. intros H. unfold call. now rewrite H. Qed.

Lemma call_inv {A} (q : Query) (answer : World -> A) (w w' : World) (a : A) :
  call faults q answer w = (Val a, w') ->
  faults (List.length (issued w)) = None /\ a = answer w /\ w' = advance w [q].
Proof.
  unfold call. destruct (faults (List.length (issued w))); intros H.
  - discriminate H.
  - inversion H. auto.
Qed.

(** A call answers or throws, and leaves the store and the datasource alone. *)
Lemma call_shape {A} (q : Query) (answer : World -> A) (w : World) :
  (exists a, call faults q answer w = (Val a, advance w [q])) \/
  (exists e, call faults q answer w = (Throw e, advance w [q])).
Proof.
  unfold call. destruct (faults (List.length (issued w))) as [e|].
  - right. now exists e.
  - left. now exists (answer w).
Qed.

Lemma bind_inv {S A B} (m : Prog S A) (k : A -> Prog S B) (s s' : S) (b : B) :
  bind m k s = (Val b, s') ->
  exists a s1, m s = (Val a, s1) /\ k a s1 = (Val b, s').
Proof.
  unfold bind. destruct (m s) as [[a|e|c] s1]; intros H; try discriminate H.
  now exists a, s1.
Qed.

(** *** The lookup loop *)

Lemma push_users_run (rows : list ByUser) :
  forall (acc entries : list UserCount) (w : World),
  owner_entries (store w) rows = Some entries ->
  (forall k, (k < List.length rows)%nat ->
             faults (List.length (issued w) + k)%nat = None) ->
  push_users faults rows acc w = (Val (acc ++ entries), advance w (map lookup_of rows)).
Proof.
  induction rows as [|row rows IH]; intros acc entries w He Hf.
  - cbn in *. inversion He. unfold ret, advance.
    rewrite !app_nil_r. now destruct w.
  - cbn in He. unfold owner_entry in He.
    destruct (find_user (store w) (by_userId row)) as [u|] eqn:Hu; [|discriminate He].
    destruct (owner_entries (store w) rows) as [es|] eqn:Hes; [|discriminate He].
    inversion He; subst entries; clear He.
    cbn [push_users]. unfold bind, user_findFirst.
    rewrite call_run by (rewrite <- (Hf 0%nat); [f_equal; lia | cbn; lia]).
    rewrite Hu.
    rewrite (IH _ es).
    + rewrite advance_advance, <- app_assoc. reflexivity.
    + exact Hes.
    + intros k Hk. rewrite issued_advance. cbn [List.length].
      rewrite <- (Hf (S k)); [f_equal; lia | cbn; lia].
Qed.

Lemma push_users_inv (rows : list ByUser) :
  forall (acc r : list UserCount) (w w' : World),
  push_users faults rows acc w = (Val r, w') ->
  exists entries,
    owner_entries (store w) rows = Some entries /\
    r = acc ++ entries /\
    w' = advance w (map lookup_of rows) /\
    (forall k, (k < List.length rows)%nat ->
               faults (List.length (issued w) + k)%nat = None).
Proof.
  induction rows as [|row rows IH]; intros acc r w w' H.
  - cbn in H. inversion H. exists []. cbn. rewrite app_nil_r.
    repeat split; [unfold advance; rewrite app_nil_r; now destruct w'|].
    intros k Hk. lia.
  - cbn [push_users] in H. apply bind_inv in H. destruct H as (user & w1 & Hc & H).
    apply call_inv in Hc. destruct Hc as (Hf0 & -> & ->).
    destruct (find_user (store w) (by_userId row)) as [u|] eqn:Hu; [|discriminate H].
    apply IH in H. destruct H as (es & Hes & -> & -> & Hf).
    cbn [store advance] in Hes.
    exists (mkUserCount (username u) (by_count_all row) :: es).
    cbn [owner_entries]. unfold owner_entry. rewrite Hu, Hes.
    repeat split.
    + now rewrite <- app_assoc.
    + now rewrite advance_advance.
    + intros [|k] Hk.
      * rewrite Nat.add_0_r. exact Hf0.
      * rewrite <- (Hf k); [|cbn in Hk; lia].
        rewrite issued_advance. f_equal. cbn. lia.
Qed.

(** *** Nothing is written *)

Lemma read_only_call {A} (q : Query) (answer : World -> A) :
  read_only (call faults q answer).
Proof.
  intros w. exists (advance w [q]). repeat split.
  destruct (call_shape q answer w) as [H|H]; [left | right]; exact H.
Qed.

Lemma read_only_ret {A} (a : A) : read_only (@ret World A a).
Proof. intros w. exists w. repeat split. left. now exists a. Qed.

Lemma read_only_throw {A} (e : Error) : read_only (@throw World A e).
Proof. intros w. exists w. repeat split. right. now exists e. Qed.

Lemma read_only_bind {A B} (m : Prog World A) (k : A -> Prog World B) :
  read_only m -> (forall a, read_only (k a)) -> read_only (bind m k).
Proof.
  intros Hm Hk w. destruct (Hm w) as (w1 & Hs1 & Ho1 & [[a Ha]|[e He]]).
  - destruct (Hk a w1) as (w2 & Hs2 & Ho2 & Hr).
    exists w2. unfold bind. rewrite Ha.
    split; [congruence|]. split; [congruence|]. exact Hr.
  - exists w1. unfold bind. rewrite He.
    split; [exact Hs1|]. split; [exact Ho1|]. right. now exists e.
Qed.

Lemma read_only_push_users (rows : list ByUser) :
  forall acc, read_only (push_users faults rows acc).
Proof.
  induction rows as [|row rows IH]; intros acc; cbn [push_users].
  - apply read_only_ret.
  - apply read_only_bind; [apply read_only_call|].
    intros [u|]; [apply IH | apply read_only_throw].
Qed.

Lemma read_only_getStats : read_only (getStats bytesToHuman faults).
Proof.
  unfold getStats.
  repeat (apply read_only_bind;
          [first [apply read_only_call | apply read_only_push_users]|intros ?]).
  apply read_only_ret.
Qed.

(** *** The whole procedure *)

Lemma bind_run {S A B} (m : Prog S A) (k : A -> Prog S B) (s s1 : S) (a : A) :
  m s = (Val a, s1) -> bind m k s = k a s1.
Proof. intros H. unfold bind. now rewrite H. Qed.

Lemma store_advance (w : World) (qs : list Query) : store (advance w qs) = store w.
Proof. reflexivity. Qed.

Lemma occupied_advance (w : World) (qs : list Query) :
  occupied (advance w qs) = occupied w.
Proof. reflexivity. Qed.

Lemma bind_call_run {A B} (q : Query) (answer : World -> A)
    (k : A -> Prog World B) (w : World) :
  faults (List.length (issued w)) = None ->
  bind (call faults q answer) k w = k (answer w) (advance w [q]).
Proof. intros H. apply bind_run. now apply call_run. Qed.

Ltac fault_at Hf :=
  first [ rewrite issued_advance; apply Hf
        | rewrite <- (Nat.add_0_r (List.length (issued _))); apply Hf ];
  rewrite ?length_app, ?length_map; cbn [List.length]; lia.

(** A complete run: no call fails and every owner resolves. *)
Lemma getStats_run (w : World) (entries : list UserCount) :
  owner_entries (store w) (group_by_user (store w)) = Some entries ->
  fault_free faults w ->
  getStats bytesToHuman faults w =
    (Val (report_of bytesToHuman w entries), advance w (queries (store w))).
Proof.
  intros He Hf. unfold fault_free in Hf. rewrite length_queries in Hf.
  unfold getStats, datasource_fullSize, image_groupBy_userId, user_count,
    image_count, image_aggregate_sum_views, image_groupBy_mimetype.
  rewrite bind_call_run by fault_at Hf.
  rewrite bind_call_run by fault_at Hf.
  rewrite advance_advance; cbn [app].
  rewrite bind_call_run by fault_at Hf.
  rewrite advance_advance; cbn [app]. rewrite !store_advance.
  rewrite (bind_run _ _ _ _ _
             (push_users_run (group_by_user (store w)) [] entries
                (advance w [QFullSize; QGroupByUser; QUserCount]) He
                ltac:(intros k Hk; rewrite issued_advance, <- Nat.add_assoc;
                      apply Hf; cbn [List.length]; lia))).
  rewrite advance_advance.
  rewrite bind_call_run by fault_at Hf.
  rewrite advance_advance.
  rewrite bind_call_run by fault_at Hf.
  rewrite advance_advance.
  rewrite bind_call_run by fault_at Hf.
  rewrite advance_advance. rewrite ?store_advance, ?occupied_advance.
  unfold ret, report_of, queries. rewrite push_types_map.
  cbn [app]. rewrite <- ?app_assoc. reflexivity.
Qed.


(** What a run that returns a report went through. *)
Lemma getStats_inv (w w' : World) (r : Report) :
  getStats bytesToHuman faults w = (Val r, w') ->
  exists entries,
    owner_entries (store w) (group_by_user (store w)) = Some entries /\
    fault_free faults w /\
    r = report_of bytesToHuman w entries /\
    w' = advance w (queries (store w)).
Proof.
  intros H.
  unfold getStats, datasource_fullSize, image_groupBy_userId, user_count,
    image_count, image_aggregate_sum_views, image_groupBy_mimetype in H.
  apply bind_inv in H. destruct H as (a0 & w0 & H0 & H).
  apply call_inv in H0. destruct H0 as (F0 & -> & ->).
  apply bind_inv in H. destruct H as (a1 & w1 & H1 & H).
  apply call_inv in H1. destruct H1 as (F1 & -> & ->).
  apply bind_inv in H. destruct H as (a2 & w2 & H2 & H).
  apply call_inv in H2. destruct H2 as (F2 & -> & ->).
  apply bind_inv in H. destruct H as (cbu & w3 & H3 & H).
  apply push_users_inv in H3. destruct H3 as (entries & He & -> & -> & FL).
  apply bind_inv in H. destruct H as (a4 & w4 & H4 & H).
  apply call_inv in H4. destruct H4 as (F4 & -> & ->).
  apply bind_inv in H. destruct H as (a5 & w5 & H5 & H).
  apply call_inv in H5. destruct H5 as (F5 & -> & ->).
  apply bind_inv in H. destruct H as (a6 & w6 & H6 & H).
  apply call_inv in H6. destruct H6 as (F6 & -> & ->).
  unfold ret in H. inversion H as [[Hr Hw]]. clear H.
  rewrite ?advance_advance, ?store_advance, ?occupied_advance in *.
  rewrite ?issued_advance, ?length_app, ?length_map in *.
  cbn [List.length app] in *.
  exists entries. split; [exact He|]. split; [|split].
  - intros k Hk. rewrite length_queries in Hk.
    set (n := List.length (group_by_user (store w))) in *.
    assert (Hcase : (k = 0 \/ k = 1 \/ k = 2 \/ (exists j, j < n /\ k = 3 + j) \/
                     k = n + 3 \/ k = n + 4 \/ k = n + 5)%nat).
    { destruct (Nat.lt_ge_cases k 3); [lia|].
      destruct (Nat.lt_ge_cases k (n + 3)); [|lia].
      right. right. right. left. exists (k - 3)%nat. lia. }
    destruct Hcase as [->|[->|[->|[[j [Hj ->]]|[->|[->| ->]]]]]].
    + rewrite <- F0. f_equal. lia.
    + rewrite <- F1. f_equal.
    + rewrite <- F2. f_equal.
    + rewrite <- (FL j Hj). f_equal. lia.
    + rewrite <- F4. f_equal. lia.
    + rewrite <- F5. f_equal. lia.
    + rewrite <- F6. f_equal. lia.
  - unfold report_of. rewrite push_types_map. reflexivity.
  - unfold queries. cbn [app]. rewrite <- ?app_assoc. reflexivity.
Qed.

End StatsFacts.

(* ================================================================== *)
(** ** Facts about grouping and lookup                                 *)
(* ================================================================== *)

Section GroupFacts.
Import Js Stats.

Lemma distinct_In (l : list Z) (k : Z) : In k (distinct Z.eqb l) <-> In k l.
Proof.
  induction l as [|x l IH]; [reflexivity|].
  cbn. rewrite filter_In, IH. split.
  - intros [H|[H _]]; auto.
  - intros [H|H]; [now left|].
    destruct (Z.eq_dec x k) as [E|E]; [now left|].
    right. split; [exact H|]. apply Bool.negb_true_iff. now apply Z.eqb_neq.
Qed.

Lemma distinct_NoDup (l : list Z) : NoDup (distinct Z.eqb l).
Proof.
  induction l as [|x l IH]; [constructor|].
  cbn. constructor.
  - rewrite filter_In. intros [_ H]. rewrite Z.eqb_refl in H. discriminate H.
  - now apply NoDup_filter.
Qed.

Lemma group_by_user_keys (s : Store) :
  map by_userId (group_by_user s) = distinct Z.eqb (map userId (images s)).
Proof.
  unfold group_by_user, groupBy_count. rewrite !map_map. cbn. apply map_id.
Qed.

Lemma group_by_user_count (s : Store) (row : ByUser) :
  In row (group_by_user s) ->
  by_count_all row = occurrences Z.eqb (by_userId row) (map userId (images s)).
Proof.
  unfold group_by_user, groupBy_count. rewrite map_map. cbn.
  intros H. apply in_map_iff in H. destruct H as (k & <- & _). reflexivity.
Qed.

(** Each row's owner is the owner of some object, and conversely. *)
Lemma group_by_user_owner (s : Store) (o : Z) :
  In o (map by_userId (group_by_user s)) <-> In o (map userId (images s)).
Proof. rewrite group_by_user_keys. apply distinct_In. Qed.

Lemma owner_entries_some (s : Store) (rows : list ByUser) :
  (forall row, In row rows -> find_user s (by_userId row) <> None) ->
  exists entries, owner_entries s rows = Some entries.
Proof.
  induction rows as [|row rows IH]; intros H.
  - now exists [].
  - destruct IH as [es Hes]; [intros r Hr; apply H; now right|].
    cbn. unfold owner_entry.
    destruct (find_user s (by_userId row)) as [u|] eqn:Hu.
    + rewrite Hes. eauto.
    + exfalso. apply (H row); [now left | exact Hu].
Qed.

Lemma owner_entries_none (s : Store) (rows : list ByUser) (row : ByUser) :
  In row rows -> find_user s (by_userId row) = None ->
  owner_entries s rows = None.
Proof.
  induction rows as [|r rows IH]; intros Hin Hf; [contradiction|].
  cbn. destruct Hin as [->|Hin].
  - unfold owner_entry. now rewrite Hf.
  - rewrite (IH Hin Hf). now destruct (owner_entry s r).
Qed.

(** What the entries are: row by row, the owner's username and the
    number of objects of that owner. *)
Lemma owner_entries_rows (s : Store) (rows : list ByUser) (entries : list UserCount) :
  incl rows (group_by_user s) ->
  owner_entries s rows = Some entries ->
  Forall2 (fun row e =>
             exists u, find_user s (by_userId row) = Some u /\
                       id u = by_userId row /\
                       uc_username e = username u /\
                       uc_count e = by_count_all row /\
                       uc_count e = occurrences Z.eqb (by_userId row)
                                      (map userId (images s))) rows entries.
Proof.
  revert entries. induction rows as [|row rows IH]; intros entries Hin H.
  - inversion H. constructor.
  - cbn in H. unfold owner_entry in H.
    destruct (find_user s (by_userId row)) as [u|] eqn:Hu; [|discriminate H].
    destruct (owner_entries s rows) as [es|] eqn:Hes; [|discriminate H].
    inversion H; subst entries; clear H. constructor.
    + exists u. split; [exact Hu|]. split; [|split; [reflexivity|split; [reflexivity|]]].
      * unfold find_user in Hu. apply find_some in Hu. destruct Hu as [_ Hu].
        now apply Z.eqb_eq in Hu.
      * cbn [uc_count]. apply group_by_user_count. apply Hin. now left.
    + apply IH; [|reflexivity]. intros r Hr. apply Hin. now right.
Qed.

Lemma owners_resolve_entries (s : Store) :
  owners_resolve s ->
  exists entries, owner_entries s (group_by_user s) = Some entries.
Proof.
  intros H. apply owner_entries_some. intros row Hrow.
  assert (Ho : In (by_userId row) (map userId (images s))).
  { apply group_by_user_owner. now apply in_map. }
  apply in_map_iff in Ho. destruct Ho as (i & Hi & Hin).
  rewrite <- Hi. now apply H.
Qed.

Lemma dangling_owner_entries (s : Store) (i : Image) :
  In i (images s) -> find_user s (userId i) = None ->
  owner_entries s (group_by_user s) = None.
Proof.
  intros Hin Hf.
  assert (Ho : In (userId i) (map by_userId (group_by_user s))).
  { apply group_by_user_owner. now apply in_map. }
  apply in_map_iff in Ho. destruct Ho as (row & Hrow & Hin').
  apply (owner_entries_none s _ row Hin'). now rewrite Hrow.
Qed.

Lemma sum_Z_perm (l l' : list Z) : Permutation l l' -> sum_Z l = sum_Z l'.
Proof.
  unfold sum_Z. induction 1; cbn; lia.
Qed.

End GroupFacts.

(* ================================================================== *)
(** ** The report                                                      *)
(* ================================================================== *)

Section StatsClaims.
Import Js Stats StatsSamples.
Variable bytesToHuman : Z -> string.
Variable faults : Faults.

(** C6.  In every report, [count_by_user] and [types_count] are in
    descending order of count; each is a stable rearrangement of what the
    grouping produced (entries of equal count keep the grouping's order);
    and a second run over the same data returns the same two lists. *)
Theorem C6_lists_sorted_descending (w w' : World) (r : Report) :
  getStats bytesToHuman faults w = (Val r, w') ->
  descending uc_count (count_by_user r) /\
  descending tc_count (types_count r) /\
  (exists entries,
     owner_entries (store w) (group_by_user (store w)) = Some entries /\
     Permutation (count_by_user r) entries /\
     forall c, with_count uc_count c (count_by_user r) = with_count uc_count c entries) /\
  Permutation (types_count r) (map type_entry (group_by_type (store w))) /\
  (forall c, with_count tc_count c (types_count r)
             = with_count tc_count c (map type_entry (group_by_type (store w)))) /\
  (forall r2 w2, getStats bytesToHuman faults w' = (Val r2, w2) ->
                 count_by_user r2 = count_by_user r /\
                 types_count r2 = types_count r).
Proof.
  intros H. apply getStats_inv in H.
  destruct H as (entries & He & _ & -> & ->). cbn [report_of count_by_user types_count].
  split; [apply (sort_descending uc_count)|].
  split; [apply (sort_descending tc_count)|].
  split; [|split; [|split]].
  - exists entries. split; [exact He|]. split.
    + apply (sort_perm uc_count).
    + intros c. apply (sort_with_count uc_count).
  - apply (sort_perm tc_count).
  - intros c. apply (sort_with_count tc_count).
  - intros r2 w2 H2. apply getStats_inv in H2.
    destruct H2 as (entries2 & He2 & _ & -> & _).
    rewrite store_advance in *. cbn [report_of count_by_user types_count].
    rewrite store_advance. split; [|reflexivity].
    congruence.
Qed.

(** C7.  In every report, [views_count] is the sum of the [views] column
    over all objects: zero when there is none, and the same for any other
    arrangement of the same objects. *)
Theorem C7_views_count_is_the_sum (w w' : World) (r : Report) :
  getStats bytesToHuman faults w = (Val r, w') ->
  views_count r = sum_Z (map views (images (store w))) /\
  (images (store w) = [] -> views_count r = 0) /\
  (forall faults2 w2 w2' r2,
     Permutation (images (store w)) (images (store w2)) ->
     getStats bytesToHuman faults2 w2 = (Val r2, w2') ->
     views_count r2 = views_count r).
Proof.
  assert (Hsum : forall s, nullish (sum_views s) 0 = sum_Z (map views (images s))).
  { intros s. unfold sum_views. now destruct (images s). }
  intros H. apply getStats_inv in H.
  destruct H as (entries & _ & _ & -> & _). cbn [report_of views_count].
  split; [apply Hsum|]. split.
  - intros E. rewrite Hsum, E. reflexivity.
  - intros f2 w2 w2' r2 Hp H2. apply getStats_inv in H2.
    destruct H2 as (entries2 & _ & _ & -> & _). cbn [report_of views_count].
    rewrite !Hsum. apply sum_Z_perm. apply Permutation_map. now symmetry.
Qed.

(** C8.  On an empty store (no objects, no users, no occupied bytes) a
    run whose calls all answer returns the report with raw size 0 (and
    its rendering), object count 0, user count 0, view count 0 and two
    empty lists, after the six fixed queries. *)
Theorem C8_empty_store (w : World) :
  images (store w) = [] ->
  users (store w) = [] ->
  occupied w = 0 ->
  fault_free faults w ->
  getStats bytesToHuman faults w =
    (Val {| size := bytesToHuman 0;
            size_num := 0;
            count := 0;
            count_by_user := [];
            count_users := 0;
            views_count := 0;
            types_count := [] |},
     advance w [QFullSize; QGroupByUser; QUserCount; QImageCount; QSumViews;
                QGroupByType]).
Proof.
  intros Hi Hu Ho Hf.
  assert (Hg : group_by_user (store w) = []).
  { unfold group_by_user. now rewrite Hi. }
  rewrite (getStats_run bytesToHuman faults w []) by (try rewrite Hg; auto).
  unfold report_of, queries, group_by_type, sum_views.
  rewrite Hg, Hi, Hu, Ho. reflexivity.
Qed.

(** C9.  If any sub-query of a run is made to fail, the run throws and
    returns no report; a run that returns a report issued exactly the
    queries of the store, none of which failed; and whatever the outcome,
    the store and the datasource are left as they were. *)
Theorem C9_no_partial_report (w : World) :
  (forall k q,
     nth_error (queries (store w)) k = Some q ->
     faults (List.length (issued w) + k)%nat <> None ->
     exists e w', getStats bytesToHuman faults w = (Throw e, w') /\
                  store w' = store w /\ occupied w' = occupied w) /\
  (forall r w',
     getStats bytesToHuman faults w = (Val r, w') ->
     store w' = store w /\ occupied w' = occupied w /\
     issued w' = issued w ++ queries (store w) /\
     fault_free faults w) /\
  read_only (getStats bytesToHuman faults).
Proof.
  split; [|split].
  - intros k q Hq Hk.
    destruct (read_only_getStats bytesToHuman faults w)
      as (w' & Hs & Ho & [[r Hr]|[e He]]).
    + exfalso. apply getStats_inv in Hr. destruct Hr as (_ & _ & Hf & _).
      apply Hk, Hf. apply nth_error_Some. congruence.
    + exists e, w'. auto.
  - intros r w' H. apply getStats_inv in H.
    destruct H as (entries & _ & Hf & _ & ->). auto.
  - apply read_only_getStats.
Qed.

(** C10.  The owner lookup is dereferenced unchecked: whenever some
    object's owner id has no user row the run throws (as it does on
    [dangling_world], with the null-dereference error, after the lookup);
    when every owner id has a user row and no call fails, the run returns
    the report whose [count_by_user] holds one entry per distinct owner,
    carrying that owner's username and object count. *)
Theorem C10_owner_lookup (w : World) :
  (forall i, In i (images (store w)) ->
             find_user (store w) (userId i) = None ->
             exists e w', getStats bytesToHuman faults w = (Throw e, w')) /\
  (owners_resolve (store w) -> fault_free faults w ->
   exists entries,
     getStats bytesToHuman faults w =
       (Val (report_of bytesToHuman w entries), advance w (queries (store w))) /\
     Permutation (count_by_user (report_of bytesToHuman w entries)) entries /\
     Forall2 (fun row e =>
                exists u, find_user (store w) (by_userId row) = Some u /\
                          id u = by_userId row /\
                          uc_username e = username u /\
                          uc_count e = by_count_all row /\
                          uc_count e = occurrences Z.eqb (by_userId row)
                                         (map userId (images (store w))))
             (group_by_user (store w)) entries /\
     NoDup (map by_userId (group_by_user (store w))) /\
     (forall o, In o (map by_userId (group_by_user (store w)))
                <-> In o (map userId (images (store w))))) /\
  getStats bytesToHuman no_faults dangling_world =
    (Throw null_username,
     advance dangling_world [QFullSize; QGroupByUser; QUserCount; QFindUser 7]).
Proof.
  split; [|split].
  - intros i Hi Hn.
    destruct (read_only_getStats bytesToHuman faults w)
      as (w' & _ & _ & [[r Hr]|[e He]]).
    + exfalso. apply getStats_inv in Hr. destruct Hr as (entries & He & _).
      rewrite (dangling_owner_entries _ i Hi Hn) in He. discriminate He.
    + now exists e, w'.
  - intros Hres Hf. destruct (owners_resolve_entries _ Hres) as [entries He].
    exists entries. split; [now apply getStats_run|].
    split; [apply (sort_perm uc_count)|]. split; [|split].
    + apply owner_entries_rows; [apply incl_refl | exact He].
    + rewrite group_by_user_keys. apply distinct_NoDup.
    + apply group_by_user_owner.
  - reflexivity.
Qed.

End StatsClaims.

Section StatsRuns.
Import Js Stats StatsSamples.

(** The run over user A's two png objects and user B's json object. *)
Example demo_report :
  fst (getStats human no_faults demo_world) =
    Val {| size := ">= 1 kB"%string;
           size_num := 4096;
           count := 3;
           count_by_user := [mkUserCount "A" 2; mkUserCount "B" 1];
           count_users := 2;
           views_count := 12;
           types_count := [mkTypeCount "image/png" 2;
                           mkTypeCount "application/json" 1] |}.
Proof. reflexivity. Qed.

Lemma C6_sorted_witness :
  descending uc_count [mkUserCount "A" 2; mkUserCount "B" 1] /\
  descending tc_count [mkTypeCount "image/png" 2; mkTypeCount "application/json" 1].
Proof.
  pose proof (C6_lists_sorted_descending human no_faults demo_world _ _ eq_refl)
    as (H1 & H2 & _).
  split; [exact H1 | exact H2].
Defined.

Lemma C7_views_witness :
  views_count
    (report_of human demo_world [mkUserCount "B" 1; mkUserCount "A" 2]) = 12 /\
  views_count
    (report_of human shuffled_world [mkUserCount "A" 2; mkUserCount "B" 1]) = 12.
Proof.
  pose proof (C7_views_count_is_the_sum human no_faults demo_world _ _ eq_refl)
    as (H1 & _ & H3).
  split.
  - exact H1.
  - pose proof (H3 no_faults shuffled_world _ _
                  ltac:(cbn; apply Permutation_sym, Permutation_cons_append)
                  eq_refl) as H4.
    exact (eq_trans H4 H1).
Defined.

Lemma C8_empty_witness :
  fst (getStats human no_faults empty_world) =
    Val {| size := human 0; size_num := 0; count := 0; count_by_user := [];
           count_users := 0; views_count := 0; types_count := [] |}.
Proof.
  rewrite (C8_empty_store human no_faults empty_world eq_refl eq_refl eq_refl
             (fun k _ => eq_refl)).
  reflexivity.
Defined.

Lemma C9_failure_witness :
  exists e w', getStats human second_call_fails demo_world = (Throw e, w') /\
               store w' = demo_store.
Proof.
  destruct (C9_no_partial_report human second_call_fails demo_world) as [H _].
  destruct (H 1%nat QGroupByUser eq_refl ltac:(discriminate)) as (e & w' & He & Hs & _).
  exists e, w'. split; [exact He | exact Hs].
Defined.

Lemma C10_lookup_witness :
  (exists e w', getStats human no_faults dangling_world = (Throw e, w')) /\
  (exists entries,
     getStats human no_faults demo_world =
       (Val (report_of human demo_world entries),
        advance demo_world (queries demo_store))).
Proof.
  split.
  - destruct (C10_owner_lookup human no_faults dangling_world) as [H _].
    exact (H (mkImage 7 "image/png" 0) (or_introl eq_refl) eq_refl).
  - destruct (C10_owner_lookup human no_faults demo_world) as (_ & H & _).
    destruct H as (entries & He & _).
    + intros i Hi. cbn in Hi.
      destruct Hi as [<-|[<-|[<-|[]]]]; discriminate.
    + intros k _. reflexivity.
    + now exists entries.
Defined.

End StatsRuns.

(* ================================================================== *)
(** ** Facts about [log]                                               *)
(* ================================================================== *)

Section LogFacts.
Import Js Migrations Util.

Lemma prefix_app (p s : string) : String.prefix p (p ++ s) = true.
Proof.
  induction p as [|c p IH]; simpl.
  - now destruct s.
  - destruct (Ascii.ascii_dec c c) as [_|N]; [exact IH | now contradiction N].
Qed.

Lemma prefix_shorter (p q s : string) :
  String.prefix (p ++ q) s = true -> String.prefix p s = true.
Proof.
  revert s. induction p as [|c p IH]; intros s.
  - now destruct s.
  - destruct s as [|a s]; simpl; [discriminate|].
    destruct (Ascii.ascii_dec c a); [apply IH | discriminate].
Qed.

(** [log] writes nothing for a url under [/_next] or [/__nextjs],
    whatever follows the prefix; for a url that does not start with [/_]
    it writes exactly one line, the url itself, at level info on the
    'url' channel; and it never writes anything else. *)
Theorem log_skips_next_internals (url rest : string) (written : list Entry) :
  log ("/_next" ++ rest) written = (Val tt, written) /\
  log ("/__nextjs" ++ rest) written = (Val tt, written) /\
  (startsWith url "/_" = false ->
   log url written = (Val tt, written ++ [mkEntry "url" info url])) /\
  (snd (log url written) = written \/
   snd (log url written) = written ++ [mkEntry "url" info url]).
Proof.
  unfold log, startsWith. repeat split.
  - now rewrite (prefix_app "/_next" rest).
  - rewrite (prefix_app "/__nextjs" rest). now rewrite Bool.orb_true_r.
  - intros Hp.
    assert (H1 : String.prefix "/_next" url = false).
    { destruct (String.prefix "/_next" url) eqn:E; [|reflexivity].
      apply (prefix_shorter "/_" "next") in E. congruence. }
    assert (H2 : String.prefix "/__nextjs" url = false).
    { destruct (String.prefix "/__nextjs" url) eqn:E; [|reflexivity].
      apply (prefix_shorter "/_" "_nextjs") in E. congruence. }
    now rewrite H1, H2.
  - destruct (String.prefix "/_next" url || String.prefix "/__nextjs" url);
      [now left | now right].
Qed.

Lemma log_witness :
  log "/dashboard" [] = (Val tt, [mkEntry "url" info "/dashboard"]).
Proof.
  exact (proj1 (proj2 (proj2 (log_skips_next_internals "/dashboard" "" [])))
           eq_refl).
Defined.

End LogFacts.

(* ================================================================== *)
(** ** Facts about the shorten handler                                 *)
(* ================================================================== *)

Ltac run_handler :=
  unfold Shorten.handler, Shorten.user_findFirst, Shorten.url_findFirst,
    Shorten.url_create, Shorten.createInvisURL, Shorten.sendShorten,
    Shorten.logger, Shorten.call, Js.bind, Js.ret, Js.modify;
  cbn [Shorten.users Shorten.urls Shorten.issued Shorten.logged fst snd].

(** Case analysis on every condition a run of the handler meets, the
    outcome of each awaited call first. *)
Ltac split_step :=
  first
    [ match goal with
      | |- context [Shorten.faults ?h ?n] => destruct (Shorten.faults h n) eqn:?
      end
    | match goal with
      | |- context [match ?x with _ => _ end] =>
          lazymatch x with
          | context [match _ with _ => _ end] => fail
          | _ => destruct x eqn:?
          end
      end ];
  cbn [Shorten.users Shorten.urls Shorten.issued Shorten.logged fst snd].

Ltac split_run := repeat split_step.

Section ShortenFacts.
Import Js Migrations Shorten.
Context {num : Type} (H : Host num).

Lemma find_vanity_none (v : string) (rows : list (Url num)) :
  truthy (Some v) = true ->
  find (has_vanity v) rows = None -> ~ In v (vanities rows).
Proof.
  intros Hv. induction rows as [|row rows IH]; cbn [find vanities]; [tauto|].
  unfold has_vanity at 1. destruct (url_vanity row) as [v'|].
  - destruct (String.eqb v' v) eqn:E; [discriminate|]. intros Hf.
    destruct (truthy (Some v')); [|now apply IH].
    intros [->|Hin]; [now rewrite String.eqb_refl in E | now apply IH].
  - exact IH.
Qed.

Lemma vanities_app (a b : list (Url num)) :
  vanities (a ++ b) = vanities a ++ vanities b.
Proof.
  induction a as [|row a IH]; [reflexivity|].
  cbn [app vanities]. destruct (url_vanity row) as [v|]; [|exact IH].
  destruct (truthy (Some v)); [|exact IH]. cbn. now rewrite IH.
Qed.

(** What a run can have done to the table of urls: nothing, or one row
    added at the end whose vanity, when it has one, was not in use. *)
Lemma handler_urls (req : Request) (w : World num) :
  urls (snd (handler H req w)) = urls w \/
  exists row,
    urls (snd (handler H req w)) = urls w ++ [row] /\
    (forall v, url_vanity row = Some v -> truthy (Some v) = true ->
               ~ In v (vanities (urls w))).
Proof.
  run_handler. split_run; try (left; reflexivity); right; eexists;
    (split; [reflexivity|]); cbn [url_vanity]; intros v Hv Ht;
    try congruence.
  all: try (inversion Hv; subst; congruence).
  all: inversion Hv; subst; eapply find_vanity_none; eauto.
Qed.


Ltac tidy_conditions :=
  repeat match goal with
         | E : negb _ = false |- _ => apply Bool.negb_false_iff in E
         | E : negb _ = true |- _ => apply Bool.negb_true_iff in E
         end.

Ltac use_conditions :=
  repeat match goal with
         | E : ?x = _ |- context [?x] => rewrite E
         end.

(** What a [json] answer tells: who asked, what was stored and what was
    left behind. *)
Lemma handler_json_inv (req : Request) (w w' : World num) (l : string) :
  handler H req w = (Val (json l), w') ->
  exists tok user b dest,
    authorization req = Some tok /\ truthy (Some tok) = true /\
    find (fun u => String.eqb (token u) tok) (users w) = Some user /\
    body req = Some b /\ body_url b = Some dest /\ truthy (Some dest) = true /\
    is_nan H (max_url_views H req) = false /\
    below_zero H (max_url_views H req) = false /\
    (forall v, body_vanity b = Some v -> truthy (Some v) = true ->
               find (has_vanity v) (urls w) = None) /\
    l = link H req b (invis_of H req (new_row H req b dest user))
          (new_row H req b dest user) /\
    w' = accepted_world H req tok user b dest w.
Proof.
  run_handler. split_run; intros R; inversion R; subst; clear R;
    tidy_conditions;
    match goal with
    | Ha : authorization req = Some ?tok,
      Hu : find _ (users w) = Some ?user,
      Hb : body req = Some ?b,
      Hd : body_url ?b = Some ?dest |- _ => exists tok, user, b, dest
    end;
    repeat (split; [solve [auto | intros; congruence]|]);
    unfold accepted_world, invis_of, new_row, vanity_lookup;
    cbn [url_id]; use_conditions; cbn [app];
    rewrite <- ?app_assoc; cbn [app]; split; reflexivity.
Qed.


Lemma find_vanity_some (v : string) (rows : list (Url num)) (row : Url num) :
  In row rows -> url_vanity row = Some v ->
  exists row', find (has_vanity v) rows = Some row'.
Proof.
  intros Hin Hv. destruct (find (has_vanity v) rows) as [row'|] eqn:E; [eauto|].
  pose proof (find_none _ _ E row Hin) as Hn. unfold has_vanity in Hn.
  rewrite Hv, String.eqb_refl in Hn. discriminate Hn.
Qed.

Lemma no_faults_here (w : World num) :
  no_faults_from H w -> faults H (List.length (issued w)) = None.
Proof. intros Hf. apply Hf. lia. Qed.

Lemma no_faults_later (w : World num) (n : nat) (e : Error) :
  no_faults_from H w -> faults H n = Some e -> (List.length (issued w) <= n)%nat ->
  False.
Proof. intros Hf He Hn. rewrite (Hf n Hn) in He. discriminate He. Qed.

Ltac no_fault Hf :=
  exfalso;
  match goal with
  | E : faults H ?n = Some ?e |- _ =>
      apply (no_faults_later _ n e Hf E); cbn [issued];
      rewrite ?length_app; cbn [List.length]; lia
  end.

(** Without an [authorization] header (or with an empty one) the handler
    answers 'no authorization' at once: it issues no query, writes no log
    line and leaves both tables alone. *)
Theorem shorten_without_authorization (req : Request) (w : World num) :
  truthy (authorization req) = false ->
  handler H req w = (Val (badRequest "no authorization"), w).
Proof.
  intros Ha. run_handler. destruct (authorization req) as [tok|]; [|reflexivity].
  now rewrite Ha.
Qed.

(** A token that matches no user is answered 'authorization incorect'
    after the one user lookup, whatever else the request carries: a
    missing body or url is not reported to an unknown caller. *)
Theorem shorten_unknown_token (req : Request) (w : World num) (tok : string) :
  authorization req = Some tok ->
  truthy (Some tok) = true ->
  faults H (List.length (issued w)) = None ->
  find (fun u => String.eqb (token u) tok) (users w) = None ->
  handler H req w =
    (Val (unauthorized "authorization incorect"),
     mkWorld (users w) (urls w) (issued w ++ [CFindUser tok]) (logged w)).
Proof.
  intros Ha Ht Hf Hu. run_handler. rewrite Ha, Ht. cbn [negb].
  rewrite Hf, Hu. reflexivity.
Qed.

(** Every refusal (400 or 401) leaves the users, the urls and the log as
    they were; the only calls made before it are lookups. *)
Theorem shorten_refusals_write_nothing (req : Request) (w w' : World num)
    (r : Response) :
  handler H req w = (Val r, w') ->
  refusal r = true ->
  users w' = users w /\ urls w' = urls w /\ logged w' = logged w /\
  exists qs, issued w' = issued w ++ qs /\ forallb is_lookup qs = true.
Proof.
  run_handler. split_run; intros R Hr; inversion R; subst; clear R;
    try discriminate Hr; cbn [users urls issued logged];
    repeat (split; [reflexivity|]).
  all: first [ exists []; rewrite app_nil_r; split; reflexivity
             | eexists; rewrite <- ?app_assoc; split; reflexivity ].
Qed.

(** A [json] answer means exactly one row was added to the urls, at the
    end: it is owned by the user whose token the request carried, its
    destination is the body's url and its vanity the body's vanity; the
    users are untouched. *)
Theorem shorten_json_stores_one_row (req : Request) (w w' : World num)
    (l : string) :
  handler H req w = (Val (json l), w') ->
  exists user b dest row,
    In user (users w) /\ authorization req = Some (token user) /\
    body req = Some b /\ body_url b = Some dest /\ dest <> "" /\
    urls w' = urls w ++ [row] /\ users w' = users w /\
    url_userId row = id user /\ url_destination row = dest /\
    url_vanity row = body_vanity b /\
    url_id row = randomChars H (urls_length (zconfig H)).
Proof.
  intros R. apply handler_json_inv in R.
  destruct R as (tok & user & b & dest & Ha & _ & Hu & Hb & Hd & Ht & _ & _ & _ & _ & ->).
  apply find_some in Hu. destruct Hu as [Hin Htok]. apply String.eqb_eq in Htok.
  exists user, b, dest, (new_row H req b dest user).
  repeat split; auto.
  - now rewrite Htok.
  - intros ->. discriminate Ht.
Qed.

(** The [maxViews] of a stored row is null exactly when the request had
    no (or an empty) [max-views] header; otherwise it is the header's
    number, which is neither NaN nor negative. *)
Theorem shorten_stored_max_views_valid (req : Request) (w w' : World num)
    (l : string) :
  handler H req w = (Val (json l), w') ->
  exists row,
    urls w' = urls w ++ [row] /\
    match url_maxViews row with
    | None => truthy (max_views req) = false
    | Some n =>
        isNaN H n = false /\ negative H n = false /\
        exists s, max_views req = Some s /\ s <> "" /\ n = Number H s
    end.
Proof.
  intros R. apply handler_json_inv in R.
  destruct R as (tok & user & b & dest & _ & _ & _ & _ & _ & _ & Hn & Hz & _ & _ & ->).
  exists (new_row H req b dest user). split; [reflexivity|].
  cbn [new_row url_maxViews]. unfold max_url_views in *.
  destruct (max_views req) as [s|]; [|reflexivity].
  destruct (truthy (Some s)) eqn:Ht; [|reflexivity].
  cbn in Hn, Hz. repeat split; auto.
  exists s. repeat split. intros ->. discriminate Ht.
Qed.

(** The handler keeps the vanities in use pairwise distinct, whatever
    the request and however the run ends. *)
Theorem shorten_keeps_vanities_distinct (req : Request) (w : World num) :
  NoDup (vanities (urls w)) ->
  NoDup (vanities (urls (snd (handler H req w)))).
Proof.
  intros Hnd. destruct (handler_urls req w) as [->|(row & -> & Hfresh)];
    [exact Hnd|].
  rewrite vanities_app. cbn [vanities].
  destruct (url_vanity row) as [v|] eqn:Hv; [|now rewrite app_nil_r].
  destruct (truthy (Some v)) eqn:Ht; [|now rewrite app_nil_r].
  apply NoDup_app.
  - exact Hnd.
  - constructor; [intros []|constructor].
  - intros x Hx [E|[]]. subst x. exact (Hfresh v eq_refl Ht Hx).
Qed.


(** An authenticated request with a url, an acceptable [max-views] and a
    vanity that is free (or none) is accepted when no call fails: the
    answer is the link, and the world is the one with the new row, the
    calls and the two log lines added. *)
Theorem shorten_accepts (req : Request) (w : World num) (tok dest : string)
    (user : User) (b : Body) :
  authorization req = Some tok -> truthy (Some tok) = true ->
  find (fun u => String.eqb (token u) tok) (users w) = Some user ->
  body req = Some b -> body_url b = Some dest -> truthy (Some dest) = true ->
  is_nan H (max_url_views H req) = false ->
  below_zero H (max_url_views H req) = false ->
  (forall v, body_vanity b = Some v -> truthy (Some v) = true ->
             find (has_vanity v) (urls w) = None) ->
  no_faults_from H w ->
  handler H req w =
    (Val (json (link H req b (invis_of H req (new_row H req b dest user))
                  (new_row H req b dest user))),
     accepted_world H req tok user b dest w).
Proof.
  intros Ha Ht Hu Hb Hd Htd Hn Hz Hv Hf. run_handler.
  rewrite Ha, Ht. cbn [negb]. rewrite (no_faults_here w Hf), Hu, Hb, Hd, Htd.
  cbn [negb]. rewrite Hn, Hz.
  unfold accepted_world, invis_of, new_row, vanity_lookup.
  destruct (body_vanity b) as [v|] eqn:Ev;
    [destruct (truthy (Some v)) eqn:Etv;
     [pose proof (Hv v eq_refl Etv) as Hfree|]|];
    split_run; try no_fault Hf; try congruence; cbn [url_id app];
    rewrite <- ?app_assoc; reflexivity.
Qed.

(** A request for a vanity that some row already has is refused with
    'vanity already exists' after the two lookups; nothing is stored. *)
Theorem shorten_vanity_taken (req : Request) (w : World num) (tok dest v : string)
    (user : User) (b : Body) (row : Url num) :
  authorization req = Some tok -> truthy (Some tok) = true ->
  find (fun u => String.eqb (token u) tok) (users w) = Some user ->
  body req = Some b -> body_url b = Some dest -> truthy (Some dest) = true ->
  is_nan H (max_url_views H req) = false ->
  below_zero H (max_url_views H req) = false ->
  body_vanity b = Some v -> truthy (Some v) = true ->
  In row (urls w) -> url_vanity row = Some v ->
  no_faults_from H w ->
  handler H req w =
    (Val (badRequest "vanity already exists"),
     mkWorld (users w) (urls w) (issued w ++ [CFindUser tok; CFindVanity v])
             (logged w)).
Proof.
  intros Ha Ht Hu Hb Hd Htd Hn Hz Hv Htv Hin Hrow Hf. run_handler.
  rewrite Ha, Ht. cbn [negb]. rewrite (no_faults_here w Hf), Hu, Hb, Hd, Htd.
  cbn [negb]. rewrite Hn, Hz, Hv, Htv.
  destruct (find_vanity_some v (urls w) row Hin Hrow) as [row' Hfind].
  split_run; try no_fault Hf; try congruence.
  rewrite <- app_assoc. reflexivity.
Qed.

(** Sending an accepted request that names a vanity a second time gets
    'vanity already exists', and the second run stores nothing. *)
Theorem shorten_same_vanity_twice (req : Request) (w w1 : World num)
    (l v : string) (b : Body) :
  handler H req w = (Val (json l), w1) ->
  body req = Some b -> body_vanity b = Some v -> truthy (Some v) = true ->
  no_faults_from H w1 ->
  fst (handler H req w1) = Val (badRequest "vanity already exists") /\
  urls (snd (handler H req w1)) = urls w1.
Proof.
  intros R Hb Hv Htv Hf. apply handler_json_inv in R.
  destruct R as (tok & user & b' & dest & Ha & Ht & Hu & Hb' & Hd & Htd & Hn & Hz & _ & _ & ->).
  assert (b' = b) by congruence. subst b'.
  rewrite (shorten_vanity_taken req _ tok dest v user b (new_row H req b dest user));
    auto.
  - cbn [accepted_world urls]. apply in_or_app. right. now left.
Qed.


(** A non-empty vanity always ends the link, also when the [zws] header
    had an invisible id made. *)
Theorem shorten_vanity_ends_link (req : Request) (w w' : World num)
    (l v : string) (b : Body) :
  handler H req w = (Val (json l), w') ->
  body req = Some b -> body_vanity b = Some v -> truthy (Some v) = true ->
  l = ((if core_https (zconfig H) then "https" else "http") ++ "://"
         ++ interpolate (host req) ++ urls_route (zconfig H) ++ "/" ++ v)%string.
Proof.
  intros R Hb Hv Htv. apply handler_json_inv in R.
  destruct R as (tok & user & b' & dest & _ & _ & _ & Hb' & _ & _ & _ & _ & _ & -> & _).
  assert (b' = b) by congruence. subst b'.
  unfold link, slug. rewrite Hv, Htv. reflexivity.
Qed.

(** A [max-views] header that is not a number, or is a negative one, is
    refused before anything is stored; the not-a-number report comes
    first. *)
Theorem shorten_rejects_bad_max_views (req : Request) (w : World num)
    (tok dest s : string) (user : User) (b : Body) :
  authorization req = Some tok -> truthy (Some tok) = true ->
  find (fun u => String.eqb (token u) tok) (users w) = Some user ->
  body req = Some b -> body_url b = Some dest -> truthy (Some dest) = true ->
  max_views req = Some s -> truthy (Some s) = true ->
  isNaN H (Number H s) = true \/ negative H (Number H s) = true ->
  faults H (List.length (issued w)) = None ->
  handler H req w =
    (Val (badRequest (if isNaN H (Number H s)
                      then "invalid max views (invalid number)"
                      else "invalid max views (max views < 0)")),
     mkWorld (users w) (urls w) (issued w ++ [CFindUser tok]) (logged w)).
Proof.
  intros Ha Ht Hu Hb Hd Htd Hm Hts Hbad Hf. run_handler.
  rewrite Ha, Ht. cbn [negb]. rewrite Hf, Hu, Hb, Hd, Htd. cbn [negb].
  unfold is_nan, below_zero, max_url_views. rewrite Hm, Hts.
  destruct (isNaN H (Number H s)); [reflexivity|].
  destruct Hbad as [Hbad|Hbad]; [discriminate|]. now rewrite Hbad.
Qed.

(** However a run ends, it has issued at most five calls, at most one of
    them a create; it calls [createInvisURL] only for a request with a
    [zws] header and [sendShorten] only when the configuration asks. *)
Theorem shorten_calls_are_bounded (req : Request) (w : World num) :
  exists qs,
    issued (snd (handler H req w)) = issued w ++ qs /\
    (List.length qs <= 5)%nat /\
    (List.length (filter is_create qs) <= 1)%nat /\
    (truthy (zws req) = false -> filter is_invis qs = []) /\
    (discord_shorten (zconfig H) = false -> filter is_send qs = []).
Proof.
  run_handler. split_run.
  all: first [ exists []; rewrite app_nil_r; split; [reflexivity|]
             | eexists; rewrite <- ?app_assoc; split; [reflexivity|] ].
  all: cbn; repeat split; try lia; intros; congruence.
Qed.


(** An authenticated request with no body is refused with 'no body', and
    one whose body has no (or an empty) url with 'no url', after the user
    lookup alone: neither [max-views] nor the vanity is looked at. *)
Theorem shorten_requires_url (req : Request) (w : World num) (tok : string)
    (user : User) :
  authorization req = Some tok -> truthy (Some tok) = true ->
  find (fun u => String.eqb (token u) tok) (users w) = Some user ->
  faults H (List.length (issued w)) = None ->
  match body req with
  | None => True
  | Some b => truthy (body_url b) = false
  end ->
  handler H req w =
    (Val (badRequest (match body req with None => "no body" | Some _ => "no url" end)),
     mkWorld (users w) (urls w) (issued w ++ [CFindUser tok]) (logged w)).
Proof.
  intros Ha Ht Hu Hf Hb. run_handler. rewrite Ha, Ht. cbn [negb].
  rewrite Hf, Hu. destruct (body req) as [b|]; [|reflexivity].
  destruct (body_url b) as [dest|]; [|reflexivity]. now rewrite Hb.
Qed.

(** When a run throws, the users are as they were, and the urls are too
    unless the row was already created: that happens only when
    [createInvisURL] or [sendShorten] rejects, and then the row stays
    stored although no answer was sent. *)
Theorem shorten_failure_after_create (req : Request) (w w' : World num)
    (e : Error) :
  handler H req w = (Throw e, w') ->
  users w' = users w /\
  (urls w' = urls w \/
   exists tok user b dest,
     urls w' = urls w ++ [new_row H req b dest user] /\
     authorization req = Some tok /\ body req = Some b /\
     body_url b = Some dest /\
     (truthy (zws req) = true \/ discord_shorten (zconfig H) = true)).
Proof.
  run_handler. split_run; intros R; inversion R; subst; clear R;
    cbn [users urls]; (split; [reflexivity|]);
    try (left; reflexivity); right;
    match goal with
    | Ha : authorization req = Some ?tok,
      Hu : find _ (users w) = Some ?user,
      Hb : body req = Some ?b,
      Hd : body_url ?b = Some ?dest |- _ => exists tok, user, b, dest
    end;
    unfold new_row; use_conditions; repeat split; auto.
Qed.

End ShortenFacts.

Section ShortenRuns.
Import Js Migrations Shorten ShortenSamples.

(** One accepted request, from the first lookup to the answer. *)
Example vanity_run :
  handler plain_host vanity_request start =
    (Val (json "https://z.example/go/docs"),
     mkWorld [carol]
       [mkUrl "a1b2c3" (Some "docs") "https://example.org/a" 1 (Some (Some 10))]
       [CFindUser "secret"; CFindVanity "docs";
        CCreateUrl (mkUrl "a1b2c3" (Some "docs") "https://example.org/a" 1
                          (Some (Some 10)))]
       [(debug, "shortened {id:a1b2c3}");
        (info, "User carol (1) shortenned a url https://example.org/a (a1b2c3)")]).
Proof. reflexivity. Qed.

Lemma shorten_without_authorization_witness :
  handler plain_host anonymous_request start
    = (Val (badRequest "no authorization"), start).
Proof.
  exact (shorten_without_authorization plain_host anonymous_request start eq_refl).
Defined.

Lemma shorten_unknown_token_witness :
  fst (handler plain_host stranger_request start)
    = Val (unauthorized "authorization incorect").
Proof.
  rewrite (shorten_unknown_token plain_host stranger_request start "guess"
             eq_refl eq_refl eq_refl eq_refl).
  reflexivity.
Defined.

Lemma shorten_refusals_witness :
  urls (snd (handler plain_host negative_request start)) = urls start.
Proof.
  exact (proj1 (proj2 (shorten_refusals_write_nothing plain_host negative_request
                         start _ _ eq_refl eq_refl))).
Defined.

Lemma shorten_json_witness :
  exists user b dest row,
    In user (users start) /\ authorization vanity_request = Some (token user) /\
    body vanity_request = Some b /\ body_url b = Some dest /\ dest <> "" /\
    urls (snd (handler plain_host vanity_request start)) = urls start ++ [row] /\
    users (snd (handler plain_host vanity_request start)) = users start /\
    url_userId row = id user /\ url_destination row = dest /\
    url_vanity row = body_vanity b /\
    url_id row = randomChars plain_host (urls_length (zconfig plain_host)).
Proof.
  exact (shorten_json_stores_one_row plain_host vanity_request start _ _ eq_refl).
Defined.

Lemma shorten_max_views_witness :
  exists row,
    urls (snd (handler plain_host vanity_request start)) = urls start ++ [row] /\
    match url_maxViews row with
    | None => truthy (max_views vanity_request) = false
    | Some n =>
        isNaN plain_host n = false /\ negative plain_host n = false /\
        exists s, max_views vanity_request = Some s /\ s <> "" /\
                  n = Number plain_host s
    end.
Proof.
  exact (shorten_stored_max_views_valid plain_host vanity_request start _ _ eq_refl).
Defined.

Lemma shorten_distinct_witness :
  NoDup (vanities (urls (snd (handler plain_host vanity_request start)))).
Proof.
  exact (shorten_keeps_vanities_distinct plain_host vanity_request start
           (NoDup_nil string)).
Defined.

Lemma shorten_accepts_witness :
  fst (handler plain_host vanity_request start)
    = Val (json "https://z.example/go/docs").
Proof.
  rewrite (shorten_accepts plain_host vanity_request start "secret"
             "https://example.org/a" carol
             (mkBody (Some "https://example.org/a") (Some "docs"))
             eq_refl eq_refl eq_refl eq_refl eq_refl eq_refl eq_refl eq_refl
             (fun _ _ _ => eq_refl) (fun _ _ => eq_refl)).
  reflexivity.
Defined.

Lemma shorten_vanity_taken_witness :
  fst (handler plain_host zws_vanity_request
         (snd (handler plain_host vanity_request start)))
    = Val (badRequest "vanity already exists").
Proof.
  rewrite (shorten_vanity_taken plain_host zws_vanity_request
             (snd (handler plain_host vanity_request start)) "secret"
             "https://example.org/a" "docs" carol
             (mkBody (Some "https://example.org/a") (Some "docs"))
             (mkUrl "a1b2c3" (Some "docs") "https://example.org/a" 1 (Some (Some 10)))
             eq_refl eq_refl eq_refl eq_refl eq_refl eq_refl eq_refl eq_refl
             eq_refl eq_refl (or_introl eq_refl) eq_refl (fun _ _ => eq_refl)).
  reflexivity.
Defined.

Lemma shorten_twice_witness :
  fst (handler plain_host vanity_request
         (snd (handler plain_host vanity_request start)))
    = Val (badRequest "vanity already exists").
Proof.
  exact (proj1 (shorten_same_vanity_twice plain_host vanity_request start _ _
                  "docs" _ eq_refl eq_refl eq_refl eq_refl (fun _ _ => eq_refl))).
Defined.


Lemma shorten_vanity_ends_link_witness :
  In (CCreateInvis 6 "a1b2c3")
     (issued (snd (handler plain_host zws_vanity_request start))) /\
  fst (handler plain_host zws_vanity_request start)
    = Val (json "https://z.example/go/docs").
Proof.
  split; [cbn; tauto|].
  pose proof (shorten_vanity_ends_link plain_host zws_vanity_request start _ _
                "docs" _ eq_refl eq_refl eq_refl eq_refl) as E.
  exact (f_equal (fun s => Val (json s)) E).
Defined.

Lemma shorten_bad_max_views_witness :
  fst (handler plain_host negative_request start)
    = Val (badRequest "invalid max views (max views < 0)").
Proof.
  rewrite (shorten_rejects_bad_max_views plain_host negative_request start
             "secret" "https://example.org/a" "-1" carol
             (mkBody (Some "https://example.org/a") None)
             eq_refl eq_refl eq_refl eq_refl eq_refl eq_refl eq_refl eq_refl
             (or_intror eq_refl) eq_refl).
  reflexivity.
Defined.

Lemma shorten_requires_url_witness :
  fst (handler plain_host bodiless_request start) = Val (badRequest "no body").
Proof.
  rewrite (shorten_requires_url plain_host bodiless_request start "secret" carol
             eq_refl eq_refl eq_refl eq_refl I).
  reflexivity.
Defined.

Lemma shorten_failure_witness :
  urls (snd (handler flaky_host zws_request start)) <> urls start /\
  users (snd (handler flaky_host zws_request start)) = users start.
Proof.
  pose proof (shorten_failure_after_create flaky_host zws_request start _ _
                eq_refl) as [Hu _].
  split; [discriminate | exact Hu].
Defined.

End ShortenRuns.

(* ================================================================== *)
(** ** More about [migrations] and [getStats]                          *)
(* ================================================================== *)

Section MigrationsMore.
Import Js Migrations Lineage Samples MoreSamples.
Context {DB : Type} (E : Engine DB).


(** When [new Migrate] throws, nothing else is called: the database is
    untouched, no session was opened, and the process exits with status 1
    after the error report. *)
Theorem migrations_constructor_failure (url : option string) (w : World DB)
    (e : Error) :
  newMigrate E (db w) = Some e ->
  migrations E url w =
    (Exit 1,
     mkWorld (db w)
       (trace w ++
        [Log debug "establishing database connection"] ++
        (if startsWith (message e) "P1001"
         then [Log error (unreachable_message url)]
         else [Log error failed_message; LogError e]) ++
        [ProcessExit 1])).
Proof.
  intros Hn. run_migrations. rewrite Hn. cbn [db trace].
  destruct (startsWith (message e) "P1001"); cbn [db trace];
    rewrite <- !app_assoc; reflexivity.
Qed.

(** [applyMigrations] is called at most once, and only after the database
    was ensured and diagnosed as behind. *)
Theorem migrations_applies_only_when_behind (url : option string) (w : World DB) :
  apply_calls (trace (snd (migrations E url w))) = apply_calls (trace w) \/
  (apply_calls (trace (snd (migrations E url w))) = S (apply_calls (trace w)) /\
   exists db' d,
     newMigrate E (db w) = None /\
     ensureDatabaseExists E (db w) = inr db' /\
     diagnoseMigrationHistory E db' = inr d /\
     is_behind d = true /\
     db (snd (migrations E url w)) = snd (applyMigrations E db')).
Proof.
  assert (Hq : forall t, apply_calls (trace w ++ t) = (apply_calls (trace w) + apply_calls t)%nat).
  { intros t. unfold apply_calls. now rewrite filter_app, length_app. }
  destruct (newMigrate E (db w)) as [e0|] eqn:Hn.
  - left. rewrite (migrations_constructor_failure url w e0 Hn). cbn [snd trace].
    rewrite Hq. destruct (startsWith (message e0) "P1001"); cbn; lia.
  - destruct (ensureDatabaseExists E (db w)) as [e1|d1] eqn:He.
    + left. rewrite (migrations_ensure_fails E url w e1 Hn He). cbn [snd trace].
      rewrite Hq. destruct (startsWith (message e1) "P1001"); cbn; lia.
    + destruct (diagnoseMigrationHistory E d1) as [e2|d2] eqn:Hd.
      * left. rewrite (migrations_diagnose_fails E url w d1 e2 Hn He Hd).
        cbn [snd trace]. rewrite Hq.
        destruct (startsWith (message e2) "P1001"); cbn; lia.
      * destruct (is_behind d2) eqn:Hb.
        -- right. rewrite (migrations_behind E url w d1 d2 Hn He Hd Hb).
           destruct (applyMigrations E d1) as [[e3|] d3] eqn:Ha; cbn [snd trace db];
             rewrite Hq; (split; [|exists d1, d2; rewrite Ha; auto]).
           ++ rewrite apply_calls_behind.
              destruct (startsWith (message e3) "P1001"); unfold apply_calls;
                cbn [app filter is_apply List.length]; lia.
           ++ change (apply_calls behind_events) with 1%nat. lia.
        -- left. rewrite (migrations_not_behind E url w d1 d2 Hn He Hd Hb).
           cbn [snd trace]. rewrite Hq.
           change (apply_calls up_to_date_events) with 0%nat. lia.
Qed.

End MigrationsMore.

Section MigrationsMoreRuns.
Import Js Migrations Lineage Samples MoreSamples.

Lemma migrations_constructor_failure_witness :
  fst (migrations schemaless (Some url) (mkWorld empty_db [])) = Exit 1 /\
  ~ In Connected (trace (snd (migrations schemaless (Some url) (mkWorld empty_db [])))).
Proof.
  rewrite (migrations_constructor_failure schemaless (Some url)
             (mkWorld empty_db []) _ eq_refl).
  split; [reflexivity|].
  cbn. intros Hin. repeat (destruct Hin as [Hin|Hin]; [discriminate Hin|]).
  exact Hin.
Defined.

Lemma migrations_releases_witness :
  session_open (trace (snd (run broken_cfg (Some url) empty_db))) false = false.
Proof.
  exact (migrations_releases_after_diagnosis (engine broken_cfg) (Some url)
           (mkWorld empty_db []) empty_db
           (mkDiagnose (diagnose_history broken_cfg empty_db))
           eq_refl eq_refl eq_refl).
Defined.

End MigrationsMoreRuns.

Section CountFacts.
Import Js Stats.
Context {K : Type} (eqb : K -> K -> bool).
Hypothesis eqb_eq : forall a b, eqb a b = true <-> a = b.

Lemma eqb_refl_K (a : K) : eqb a a = true.
Proof. now apply eqb_eq. Qed.

Lemma occurrences_cons (k x : K) (l : list K) :
  occurrences eqb k (x :: l) =
    occurrences eqb k l + (if eqb k x then 1 else 0).
Proof.
  unfold occurrences. cbn [filter]. destruct (eqb k x); cbn [List.length]; lia.
Qed.

(** Over keys that [k] is not among, one more [k] changes no count. *)
Lemma sum_occurrences_skip (k : K) (ds l : list K) :
  ~ In k ds ->
  sum_Z (map (fun x => occurrences eqb x (k :: l)) ds)
    = sum_Z (map (fun x => occurrences eqb x l) ds).
Proof.
  induction ds as [|d ds IH]; intros Hn; [reflexivity|].
  cbn [map sum_Z fold_right]. fold (sum_Z (map (fun x => occurrences eqb x (k :: l)) ds)).
  fold (sum_Z (map (fun x => occurrences eqb x l) ds)).
  rewrite IH by (intros Hin; apply Hn; now right).
  rewrite occurrences_cons.
  destruct (eqb d k) eqn:E; [|lia].
  apply eqb_eq in E. subst d. exfalso. apply Hn. now left.
Qed.

(** Dropping a key that does not occur in [l] from the keys drops a zero. *)
Lemma sum_occurrences_filter (k : K) (ds l : list K) :
  sum_Z (map (fun x => occurrences eqb x l) (filter (fun x => negb (eqb k x)) ds))
    + sum_Z (map (fun x => occurrences eqb x l) (filter (eqb k) ds))
    = sum_Z (map (fun x => occurrences eqb x l) ds).
Proof.
  induction ds as [|d ds IH]; [reflexivity|].
  cbn [filter]. destruct (eqb k d); cbn [negb map sum_Z fold_right];
    unfold sum_Z in *; lia.
Qed.


Lemma distinct_mem (l : list K) (k : K) : In k (distinct eqb l) <-> In k l.
Proof.
  induction l as [|x l IH]; [reflexivity|].
  cbn [distinct In]. rewrite filter_In, IH. split.
  - intros [E|[Hin _]]; auto.
  - intros [E|Hin]; [now left|].
    destruct (eqb x k) eqn:Ex.
    + left. now apply eqb_eq.
    + right. split; [exact Hin | reflexivity].
Qed.

Lemma distinct_nodup (l : list K) : NoDup (distinct eqb l).
Proof.
  induction l as [|x l IH]; [constructor|].
  cbn [distinct]. constructor.
  - rewrite filter_In. intros [_ E]. now rewrite eqb_refl_K in E.
  - now apply NoDup_filter.
Qed.

Lemma occurrences_absent (k : K) (l : list K) :
  ~ In k l -> occurrences eqb k l = 0.
Proof.
  induction l as [|x l IH]; intros Hn; [reflexivity|].
  rewrite occurrences_cons, IH by (intros Hin; apply Hn; now right).
  destruct (eqb k x) eqn:E; [|reflexivity].
  apply eqb_eq in E. subst x. exfalso. apply Hn. now left.
Qed.

(** Among keys without repetition, the rows for [k] carry [k]'s count. *)
Lemma sum_occurrences_own (k : K) (ds l : list K) :
  NoDup ds -> (In k l -> In k ds) ->
  sum_Z (map (fun x => occurrences eqb x l) (filter (eqb k) ds))
    = occurrences eqb k l.
Proof.
  intros Hnd. induction Hnd as [|d ds Hd Hnd IH]; intros Hin.
  - cbn. symmetry. apply occurrences_absent. tauto.
  - cbn [filter]. destruct (eqb k d) eqn:E.
    + apply eqb_eq in E. subst d. cbn [map sum_Z fold_right].
      assert (Hz : filter (eqb k) ds = []).
      { destruct (filter (eqb k) ds) as [|y ys] eqn:F; [reflexivity|].
        assert (Hy : In y (filter (eqb k) ds)) by (rewrite F; now left).
        apply filter_In in Hy. destruct Hy as [Hy Ey].
        apply eqb_eq in Ey. subst y. contradiction. }
      rewrite Hz. cbn. lia.
    + apply IH. intros Hk. destruct (Hin Hk) as [->|]; [|assumption].
      now rewrite eqb_refl_K in E.
Qed.

(** The group sizes add up to the number of rows. *)
Lemma sum_groupBy_count (l : list K) :
  sum_Z (map snd (groupBy_count eqb l)) = Z.of_nat (List.length l).
Proof.
  unfold groupBy_count. rewrite map_map. cbn [snd].
  induction l as [|k l IH]; [reflexivity|].
  cbn [distinct map sum_Z fold_right].
  fold (sum_Z (map (fun x => occurrences eqb x (k :: l))
                   (filter (fun x => negb (eqb k x)) (distinct eqb l)))).
  rewrite sum_occurrences_skip
    by (rewrite filter_In; intros [_ E]; now rewrite eqb_refl_K in E).
  rewrite occurrences_cons, eqb_refl_K.
  pose proof (sum_occurrences_filter k (distinct eqb l) l) as Hs.
  rewrite (sum_occurrences_own k (distinct eqb l) l (distinct_nodup l)
             (proj2 (distinct_mem l k))) in Hs.
  cbn [List.length]. lia.
Qed.

End CountFacts.

Section StatsMore.
Import Js Stats StatsSamples.
Variable bytesToHuman : Z -> string.
Variable faults : Faults.

Lemma owner_entries_counts (s : Store) (rows : list ByUser) (entries : list UserCount) :
  owner_entries s rows = Some entries ->
  map uc_count entries = map by_count_all rows.
Proof.
  revert entries. induction rows as [|row rows IH]; intros entries He.
  - inversion He. reflexivity.
  - cbn in He. unfold owner_entry in He.
    destruct (find_user s (by_userId row)); [|discriminate He].
    destruct (owner_entries s rows) as [es|]; [|discriminate He].
    inversion He. cbn. now rewrite (IH es).
Qed.

(** In every report the per-user counts add up to the object count, and
    so do the per-type counts; the user count is the number of user rows,
    whether they own objects or not. *)
Theorem getStats_counts_add_up (w w' : World) (r : Report) :
  getStats bytesToHuman faults w = (Val r, w') ->
  sum_Z (map uc_count (count_by_user r)) = count r /\
  sum_Z (map tc_count (types_count r)) = count r /\
  count r = Z.of_nat (List.length (images (store w))) /\
  count_users r = Z.of_nat (List.length (users (store w))).
Proof.
  intros R. apply getStats_inv in R. destruct R as (entries & He & _ & -> & _).
  cbn [report_of count_by_user types_count count count_users].
  change by_user_desc with (desc uc_count).
  change by_type_desc with (desc tc_count).
  split; [|split; [|split; reflexivity]].
  - rewrite (sum_Z_perm _ _ (Permutation_map uc_count (sort_perm uc_count entries))).
    rewrite (owner_entries_counts _ _ _ He).
    unfold group_by_user. rewrite map_map. cbn [by_count_all].
    rewrite (sum_groupBy_count Z.eqb Z.eqb_eq), length_map. reflexivity.
  - rewrite (sum_Z_perm _ _ (Permutation_map tc_count
               (sort_perm tc_count (map type_entry (group_by_type (store w)))))).
    unfold group_by_type. rewrite !map_map. cbn [type_entry tc_count by_count_mimetype].
    rewrite (sum_groupBy_count String.eqb String.eqb_eq), length_map. reflexivity.
Qed.

(** A run that returns a report has issued six queries and one lookup per
    entry of [count_by_user]. *)
Theorem getStats_query_count (w w' : World) (r : Report) :
  getStats bytesToHuman faults w = (Val r, w') ->
  List.length (issued w')
    = (List.length (issued w) + 6 + List.length (count_by_user r))%nat.
Proof.
  intros R. apply getStats_inv in R. destruct R as (entries & He & _ & -> & ->).
  rewrite issued_advance, length_queries. cbn [report_of count_by_user].
  change by_user_desc with (desc uc_count).
  rewrite (Permutation_length (sort_perm uc_count entries)).
  rewrite <- (length_map uc_count entries), (owner_entries_counts _ _ _ He), length_map.
  lia.
Qed.

End StatsMore.

Section StatsMoreRuns.
Import Js Stats StatsSamples.

Lemma getStats_counts_witness :
  sum_Z [2; 1] = 3 /\ sum_Z [2; 1] = 3.
Proof.
  pose proof (getStats_counts_add_up human no_faults demo_world _ _ eq_refl)
    as (H1 & H2 & _).
  split; [exact H1 | exact H2].
Defined.

Lemma getStats_query_count_witness :
  List.length (issued (snd (getStats human no_faults demo_world))) = 8%nat.
Proof.
  exact (getStats_query_count human no_faults demo_world _ _ eq_refl).
Defined.

End StatsMoreRuns.
